(** * apnsservice: the per-application connection manager

    A shallow embedding of [apnsobject.go] (the [connectionAPNS] methods
    [launch], [close], [pushOne], the log wrappers, [logListener],
    [launchSocket] and [handleCloseError]) and of the exposed functions of
    [apnsservice.go] ([newConnection], [LaunchConnection], [PushOne],
    [CloseConnection]).

    Goroutines are modelled by the functions they run, one [select] at a
    time: the case that fires is an argument of the step function, and a
    channel operation that cannot proceed, or a Go run-time panic, is an
    outcome of the step. *)

From Stdlib Require Import ZArith Lia.
From stdpp Require Import base option list gmap strings pretty.

Open Scope Z_scope.

(** ** Go's [int] *)

(** [int] is 64 bits wide on the platforms the service runs on; arithmetic
    wraps around. *)
Definition wrap64 (z : Z) : Z := (z + 2 ^ 63) `mod` 2 ^ 64 - 2 ^ 63.

Definition int_add (x y : Z) : Z := wrap64 (x + y).
Definition int_sub (x y : Z) : Z := wrap64 (x - y).
Definition int_mul (x y : Z) : Z := wrap64 (x * y).
(** Go's [%] truncates towards zero, as [Z.rem] does. *)
Definition int_rem (x y : Z) : Z := Z.rem x y.

(** ** Outcomes of a piece of goroutine code *)

Inductive outcome (A : Type) : Type :=
| Done (a : A)      (* ran to its end *)
| Blocked           (* parked on a channel operation that cannot proceed *)
| Panicked.         (* run-time panic *)
Arguments Done {A} a.
Arguments Blocked {A}.
Arguments Panicked {A}.

#[global] Instance outcome_ret : MRet outcome := fun _ a => Done a.
#[global] Instance outcome_bind : MBind outcome := fun _ _ f m =>
  match m with
  | Done a => f a
  | Blocked => Blocked
  | Panicked => Panicked
  end.

(** ** Channels *)

(** A buffered channel: the queued elements, oldest first, and [cap]. *)
Record chan (A : Type) : Type := Chan { buf : list A; capacity : nat }.
Arguments Chan {A} buf capacity.
Arguments buf {A} c.
Arguments capacity {A} c.

(** [make(chan A, n)] *)
Definition make_chan {A : Type} (n : nat) : chan A := Chan [] n.
(** The zero value of a channel field: every operation on it blocks. *)
Definition nil_chan {A : Type} : chan A := Chan [] 0.

(** [c <- x] *)
Definition chan_send {A : Type} (c : chan A) (x : A) : outcome (chan A) :=
  if decide (length (buf c) < capacity c)%nat
  then Done (Chan (buf c ++ [x]) (capacity c))
  else Blocked.

(** [x := <-c] *)
Definition chan_recv {A : Type} (c : chan A) : outcome (A * chan A) :=
  match buf c with
  | [] => Blocked
  | x :: rest => Done (x, Chan rest (capacity c))
  end.

(** A [chan struct{}] that is only ever closed: [chanDone], [chanDoneLog]. *)
Inductive sigChan : Type := SigNil | SigOpen | SigClosed.

#[global] Instance sigChan_eq_dec : EqDecision sigChan.
Proof. solve_decision. Defined.

(** [close(c)]: closing a nil or an already closed channel panics. *)
Definition sig_close (c : sigChan) : outcome sigChan :=
  match c with
  | SigOpen => Done SigClosed
  | SigNil | SigClosed => Panicked
  end.

(** [<-c] is ready exactly when [c] has been closed. *)
Definition sig_ready (c : sigChan) : bool :=
  match c with SigClosed => true | _ => false end.

(** ** Slices indexed by an [int] *)

(** [s[i]]: out of range panics. *)
Definition go_index {A : Type} (s : list A) (i : Z) : outcome A :=
  if decide (0 <= i < Z.of_nat (length s))
  then match s !! Z.to_nat i with Some x => Done x | None => Panicked end
  else Panicked.

(** [s[i] = x] *)
Definition go_store {A : Type} (s : list A) (i : Z) (x : A) : outcome (list A) :=
  if decide (0 <= i < Z.of_nat (length s))
  then Done (<[Z.to_nat i := x]> s)
  else Panicked.

(** ** Data of the library and of the package *)

(** The fields of [apns.Payload] the package reads; [ExtraData] is kept as
    its printed form. *)
Record Payload : Type := mkPayload {
  Token : string;
  AlertText : string;
  Category : string;
  ExtraData : string
}.

#[global] Instance Payload_eq_dec : EqDecision Payload.
Proof. solve_decision. Defined.

(** The zero value of [apns.Payload], what [make([]apns.Payload, n, n)] holds. *)
Definition zeroPayload : Payload := mkPayload "" "" "" "".

(** [apns.ConnectionClose] *)
Record ConnectionClose : Type := mkClose {
  UnsentPayloads : list Payload;
  Error : string;
  ErrorPayload : option Payload;
  UnsentPayloadBufferOverflow : bool
}.

Record AppCert : Type := mkAppCert {
  AppID : Z;
  IsDev : Z;
  Cert : list Z;
  RSAKey : list Z
}.

(** [apns.APNSConfig] and [apns.APNSFeedbackServiceConfig], as far as set. *)
Record APNSConfig : Type := mkConfig {
  CertificateBytes : list Z;
  KeyBytes : list Z;
  GatewayHost : string
}.

Inductive statusAPNS : Type :=
| ApnsUnknown
| ApnsNoCerts
| ApnsCertsFound
| ApnsActive.

#[global] Instance statusAPNS_eq_dec : EqDecision statusAPNS.
Proof. solve_decision. Defined.

Record logEntry : Type := mkEntry {
  socketID : Z;
  message : string
}.

(** [connectionAPNS].  [fileLog] is the text written to the per-application
    file since the manager was made, one element per [Print]; the file is
    opened for appending, so a later [launch] adds to what is there.  A
    [*log.Logger] on that file is its prefix; the date, time and source
    position it puts before each message are left out. *)
Record connectionAPNS : Type := mkConn {
  appID : Z;
  stringID : string;
  fileLog : list string;
  loggers : gmap Z string;
  cert : option AppCert;
  cfgAPNS : option APNSConfig;
  cfgFeedback : option APNSConfig;
  chanDone : sigChan;
  chanDoneLog : sigChan;
  chanSend : chan Payload;
  chanLog : chan logEntry;
  status : statusAPNS;
  isLogging : bool
}.

Definition set_status (s : statusAPNS) (a : connectionAPNS) : connectionAPNS :=
  mkConn (appID a) (stringID a) (fileLog a) (loggers a) (cert a) (cfgAPNS a)
    (cfgFeedback a) (chanDone a) (chanDoneLog a) (chanSend a) (chanLog a)
    s (isLogging a).

Definition set_isLogging (b : bool) (a : connectionAPNS) : connectionAPNS :=
  mkConn (appID a) (stringID a) (fileLog a) (loggers a) (cert a) (cfgAPNS a)
    (cfgFeedback a) (chanDone a) (chanDoneLog a) (chanSend a) (chanLog a)
    (status a) b.

Definition set_chanSend (c : chan Payload) (a : connectionAPNS) : connectionAPNS :=
  mkConn (appID a) (stringID a) (fileLog a) (loggers a) (cert a) (cfgAPNS a)
    (cfgFeedback a) (chanDone a) (chanDoneLog a) c (chanLog a)
    (status a) (isLogging a).

Definition set_chanLog (c : chan logEntry) (a : connectionAPNS) : connectionAPNS :=
  mkConn (appID a) (stringID a) (fileLog a) (loggers a) (cert a) (cfgAPNS a)
    (cfgFeedback a) (chanDone a) (chanDoneLog a) (chanSend a) c
    (status a) (isLogging a).

Definition set_chanDone (c : sigChan) (a : connectionAPNS) : connectionAPNS :=
  mkConn (appID a) (stringID a) (fileLog a) (loggers a) (cert a) (cfgAPNS a)
    (cfgFeedback a) c (chanDoneLog a) (chanSend a) (chanLog a)
    (status a) (isLogging a).

Definition set_chanDoneLog (c : sigChan) (a : connectionAPNS) : connectionAPNS :=
  mkConn (appID a) (stringID a) (fileLog a) (loggers a) (cert a) (cfgAPNS a)
    (cfgFeedback a) (chanDone a) c (chanSend a) (chanLog a)
    (status a) (isLogging a).

Definition set_fileLog (f : list string) (a : connectionAPNS) : connectionAPNS :=
  mkConn (appID a) (stringID a) f (loggers a) (cert a) (cfgAPNS a)
    (cfgFeedback a) (chanDone a) (chanDoneLog a) (chanSend a) (chanLog a)
    (status a) (isLogging a).

(** ** [close] and [pushOne] *)

(** [func (a *connectionAPNS) close()] *)
Definition close (a : connectionAPNS) : outcome connectionAPNS :=
  if decide (status a = ApnsActive) then
    c ← sig_close (chanDone a);
    mret (set_status ApnsCertsFound (set_chanDone c a))
  else mret a.

(** [func (a *connectionAPNS) pushOne(payload apns.Payload)] *)
Definition pushOne (payload : Payload) (a : connectionAPNS) : outcome connectionAPNS :=
  if decide (status a = ApnsActive) then
    c ← chan_send (chanSend a) payload;
    mret (set_chanSend c a)
  else mret a.

(** ** The log wrappers *)

(** The line break. *)
Definition nl : string := String (Ascii.ascii_of_nat 10) EmptyString.

(** The body shared by [logPrint], [logPrintln] and [logPrintf], after the
    message has been formatted. *)
Definition logEnqueue (sid : Z) (msg : string) (a : connectionAPNS) : outcome connectionAPNS :=
  if isLogging a then
    c ← chan_send (chanLog a) (mkEntry sid msg);
    mret (set_chanLog c a)
  else mret a.

(** [logPrint]: [fmt.Sprint] of the operands. *)
Definition logPrint (sid : Z) (args : list string) (a : connectionAPNS) : outcome connectionAPNS :=
  logEnqueue sid (String.concat "" args) a.

(** [logPrintln]: [fmt.Sprintln] separates the operands by spaces and ends
    the line. *)
Definition logPrintln (sid : Z) (args : list string) (a : connectionAPNS) : outcome connectionAPNS :=
  logEnqueue sid (String.concat " " args +:+ nl) a.

(** [logPrintf]: the caller gives the pieces of the formatted text. *)
Definition logPrintf (sid : Z) (pieces : list string) (a : connectionAPNS) : outcome connectionAPNS :=
  logEnqueue sid (String.concat "" pieces) a.

(** [%v] of a [bool]. *)
Definition show_bool (b : bool) : string := if b then "true" else "false".

(** ** [handleCloseError] *)

(** The replay loop of [handleCloseError],
    [for i := intUnsentCount; i > 0; i-- { ... }], with [i] counted as a
    [nat].  The call in the body is written [a.PushOne(payload)] in the
    source; the only method of that kind on [connectionAPNS] is [pushOne]. *)
Fixpoint replayLoop (cache : list Payload) (intCurrentIdx intCacheSize : Z)
    (i : nat) (a : connectionAPNS) : outcome connectionAPNS :=
  match i with
  | O => mret a
  | S i' =>
      let intIdx :=
        int_rem (int_add (int_sub (int_add intCurrentIdx intCacheSize) (Z.of_nat i)) 1)
                intCacheSize in
      payload ← go_index cache intIdx;
      a ← pushOne payload a;
      replayLoop cache intCurrentIdx intCacheSize i' a
  end.

(** [func (a *connectionAPNS) handleCloseError(closeError, socketID, cache, intCurrentIdx)] *)
Definition handleCloseError (closeError : ConnectionClose) (sid : Z)
    (cache : list Payload) (intCurrentIdx : Z) (a : connectionAPNS)
    : outcome connectionAPNS :=
  a ← logPrintln sid ["CloseError: "; Error closeError] a;
  let intUnsentCount := Z.of_nat (length (UnsentPayloads closeError)) in
  a ← (if decide (intUnsentCount > 0) then
         logPrintf sid ["List length "; pretty intUnsentCount; ", Overflow ";
                        show_bool (UnsentPayloadBufferOverflow closeError); nl] a
       else mret a);
  a ← match ErrorPayload closeError with
      | Some payload =>
          logPrintf sid ["Payload "; ExtraData payload; " "; Category payload; " ";
                         AlertText payload; nl; Token payload; nl] a
      | None => mret a
      end;
  if decide (intUnsentCount > 0) then
    let intCacheSize := Z.of_nat (length cache) in
    let intUnsentCount :=
      if decide (intUnsentCount > intCacheSize) then intCacheSize else intUnsentCount in
    replayLoop cache intCurrentIdx intCacheSize (Z.to_nat intUnsentCount) a
  else mret a.

(** ** [launchSocket] *)

(** The local variables of one [launchSocket] goroutine.  [connLast] records
    whether the pointer is non-nil.  [wire] is the model of the library's
    [SendChannel]s: every payload this goroutine has handed over, oldest
    first. *)
Record socketState : Type := mkSocket {
  bShutdown : bool;
  bConnectionGood : bool;
  connLast : bool;
  intCacheSize : Z;
  intPayloadIdx : Z;
  payloadCache : list Payload;
  exponentialBackoff : Z;
  wire : list Payload
}.

Definition backoffLimit : Z := 128.

(** The declarations at the head of [launchSocket], for a cache of [size]
    elements. *)
Definition launchSocket_locals (size : Z) : socketState :=
  mkSocket false false false size (int_sub size 1)
    (replicate (Z.to_nat size) zeroPayload) 1 [].

(** [intCacheSize := int(32)] *)
Definition launchSocket_init : socketState := launchSocket_locals 32.

(** How [apns.NewAPNSConnection] and, after a failure, the [select] on the
    five second timer and [chanDone] turn out. *)
Inductive connectResult : Type :=
| ConnOk
| ConnErrTimer (err : string)
| ConnErrDone (err : string).

(** The head of one turn of the outer loop, entered with [bShutdown] false. *)
Definition connectStep (sid : Z) (r : connectResult) (a : connectionAPNS)
    (w : socketState) : outcome (connectionAPNS * socketState) :=
  a ← logPrint sid ["Establishing connection"] a;
  match r with
  | ConnOk =>
      a ← logPrintln sid ["Connection established"] a;
      mret (a, mkSocket (bShutdown w) true true (intCacheSize w) (intPayloadIdx w)
                 (payloadCache w) (exponentialBackoff w) (wire w))
  | ConnErrTimer err =>
      a ← logPrintf sid [" Error: "; err; nl] a;
      mret (a, mkSocket (bShutdown w) false (connLast w) (intCacheSize w)
                 (intPayloadIdx w) (payloadCache w) (exponentialBackoff w) (wire w))
  | ConnErrDone err =>
      a ← logPrintf sid [" Error: "; err; nl] a;
      if sig_ready (chanDone a) then
        a ← logPrintln sid ["Received done close"] a;
        mret (a, mkSocket true false (connLast w) (intCacheSize w)
                   (intPayloadIdx w) (payloadCache w) (exponentialBackoff w) (wire w))
      else Blocked
  end.

(** Which case of the inner [select] fires; for a payload, whether the
    nested [select] hands it to [connAPNS.SendChannel] or the timer of
    [exponentialBackoff] seconds fires first. *)
Inductive selectCase : Type :=
| CaseSend (handedOver : bool)
| CaseClose (closeError : ConnectionClose)
| CaseDone.

(** One turn of the inner loop, entered with [bConnectionGood] true and
    [bShutdown] false. *)
Definition innerSelect (sid : Z) (c : selectCase) (a : connectionAPNS)
    (w : socketState) : outcome (connectionAPNS * socketState) :=
  match c with
  | CaseSend handedOver =>
      '(payload, q) ← chan_recv (chanSend a);
      let a := set_chanSend q a in
      a ← logPrintf sid ["Push to device "; ExtraData payload; " "; AlertText payload; nl] a;
      if handedOver then
        let idx := int_rem (int_add (intPayloadIdx w) 1) (intCacheSize w) in
        cache ← go_store (payloadCache w) idx payload;
        mret (a, mkSocket (bShutdown w) (bConnectionGood w) (connLast w)
                   (intCacheSize w) idx cache 1 (wire w ++ [payload]))
      else mret (a, w)
  | CaseClose closeError =>
      a ← logPrintln sid ["Received error, closing connection"] a;
      let exponentialBackoff' :=
        if decide (exponentialBackoff w < backoffLimit)
        then int_mul (exponentialBackoff w) 2
        else exponentialBackoff w in
      a ← handleCloseError closeError sid (payloadCache w) (intPayloadIdx w) a;
      mret (a, mkSocket (bShutdown w) false (connLast w) (intCacheSize w)
                 (intPayloadIdx w) (payloadCache w) exponentialBackoff' (wire w))
  | CaseDone =>
      if sig_ready (chanDone a) then
        a ← logPrintln sid ["Done channel is closed. Closing connection."] a;
        mret (a, mkSocket true (bConnectionGood w) (connLast w) (intCacheSize w)
                   (intPayloadIdx w) (payloadCache w) (exponentialBackoff w) (wire w))
      else Blocked
  end.

(** The [select] after the loops, taken when [connLast != nil]. *)
Inductive exitCase : Type :=
| ExitTimer
| ExitClose (closeError : ConnectionClose).

(** Leaving the outer loop (its head finds [bShutdown] true) and the rest of
    [launchSocket]. *)
Definition launchSocket_exit (sid : Z) (c : exitCase) (a : connectionAPNS)
    (w : socketState) : outcome connectionAPNS :=
  a ← logPrintln sid ["Breaking the for loop, shutdown"] a;
  a ← (if connLast w then
         match c with
         | ExitTimer => logPrint sid ["."] a
         | ExitClose closeError =>
             a ← logPrintln sid ["Closing channel"] a;
             handleCloseError closeError sid (payloadCache w) (intPayloadIdx w) a
         end
       else mret a);
  a ← logPrintln sid ["Shutting down apns service"] a;
  if bShutdown w then
    c ← sig_close (chanDoneLog a);
    mret (set_chanDoneLog c a)
  else mret a.

(** The states a [launchSocket] goroutine can be in at a loop head, whatever
    the rest of the program does to the manager in between. *)
Inductive socketReach (size : Z) : socketState → Prop :=
| reach_init : socketReach size (launchSocket_locals size)
| reach_connect sid r a w a' w' :
    socketReach size w →
    bShutdown w = false →
    connectStep sid r a w = Done (a', w') →
    socketReach size w'
| reach_select sid c a w a' w' :
    socketReach size w →
    bShutdown w = false →
    bConnectionGood w = true →
    innerSelect sid c a w = Done (a', w') →
    socketReach size w'.

(** ** [logListener] *)

Inductive logCase : Type := LogEntry | LogDone.

(** One turn of the loop of [logListener]: the new manager and [bShutdown]. *)
Definition logListener_select (c : logCase) (a : connectionAPNS)
    : outcome (connectionAPNS * bool) :=
  match c with
  | LogEntry =>
      '(entry, q) ← chan_recv (chanLog a);
      match loggers a !! socketID entry with
      | Some prefix =>
          mret (set_fileLog (fileLog a ++ [prefix +:+ message entry])
                  (set_chanLog q a), false)
      | None => Panicked
      end
  | LogDone =>
      if sig_ready (chanDoneLog a) then mret (a, true) else Blocked
  end.

(** [func (a *connectionAPNS) logListener()], along a given sequence of
    [select] cases; it returns as soon as [bShutdown] is set. *)
Fixpoint logListener (cs : list logCase) (a : connectionAPNS) : outcome connectionAPNS :=
  match cs with
  | [] => Blocked
  | c :: cs' =>
      '(a, bShutdown) ← logListener_select c a;
      if bShutdown : bool then mret a else logListener cs' a
  end.

(** ** [launch] *)

(** What [launch] finds outside the package: the gateway names set by
    [InitURLs], whether [os.OpenFile] fails on a path (and with which error),
    and what [apns.ConnectToFeedbackService] answers: the list of
    (timestamp, token) responses or an error. *)
Record world : Type := mkWorld {
  pushURL : string;
  feedbackURL : string;
  openFile : string → option string;
  feedbackService : APNSConfig → list (Z * string) + string
}.

(** The goroutines a call starts with [go]. *)
Inductive goroutine : Type :=
| GoLaunchSocket (sid : Z)
| GoLogListener.

#[global] Instance goroutine_eq_dec : EqDecision goroutine.
Proof. solve_decision. Defined.

(** [func (a *connectionAPNS) getBadTokens(apnLog *log.Logger) error]: the
    lines printed through [apnLog] and the error. *)
Definition getBadTokens (env : world) (cfg : APNSConfig) (prefix : string)
    : list string * option string :=
  match feedbackService env cfg with
  | inl listResponse =>
      ((prefix +:+ "getBadTokens listResponse len " +:+
          pretty (Z.of_nat (length listResponse)) +:+ nl) ::
       ((λ fb : Z * string,
           prefix +:+ "TimeStamp and Token " +:+ pretty (fst fb) +:+ " " +:+
           snd fb +:+ nl) <$> listResponse),
       None)
  | inr err => ([prefix +:+ "getBadTokens failed  " +:+ err +:+ nl], Some err)
  end.

(** [func (a *connectionAPNS) launch(isLogging bool) error]: the error, the
    manager afterwards and the goroutines started. *)
Definition launch (env : world) (isLogging' : bool) (a : connectionAPNS)
    : outcome (option string * connectionAPNS * list goroutine) :=
  let a := set_isLogging isLogging' a in
  match status a with
  | ApnsActive | ApnsNoCerts => mret (None, a, [])
  | _ =>
      match cert a with
      | None => Panicked
      | Some c =>
          let cfg := mkConfig (Cert c) (RSAKey c) (pushURL env) in
          let cfgF := mkConfig (Cert c) (RSAKey c) (feedbackURL env) in
          let a := mkConn (appID a) (stringID a) (fileLog a) (loggers a) (cert a)
                     (Some cfg) (Some cfgF) (chanDone a) (chanDoneLog a)
                     (chanSend a) (chanLog a) (status a) (isLogging a) in
          let strLogPath := "logs/apns/" +:+ stringID a +:+ ".txt" in
          match openFile env strLogPath with
          | Some err => mret (Some err, a, [])
          | None =>
              let '(lines, err) := getBadTokens env cfgF "APN: " in
              let a := set_fileLog (fileLog a ++ lines) a in
              match err with
              | Some e => mret (Some e, a, [])
              | None =>
                  let loggers' : gmap Z string :=
                    <[2 := "APN2: "]> (<[1 := "APN1: "]> ∅) in
                  mret (None,
                        mkConn (appID a) (stringID a) (fileLog a) loggers' (cert a)
                          (cfgAPNS a) (cfgFeedback a) SigOpen SigOpen
                          (make_chan 100) (make_chan 100) ApnsActive (isLogging a),
                        [GoLaunchSocket 1; GoLaunchSocket 2])
              end
          end
      end
  end.

(** ** The exposed functions of [apnsservice.go] *)

(** [func newConnection(appID int, stringID string, appCert *AppCert) connectionAPNS];
    the pointer is an [option]. *)
Definition newConnection (appID' : Z) (stringID' : string) (appCert : option AppCert)
    : connectionAPNS :=
  let status' := if appCert is Some _ then ApnsCertsFound else ApnsNoCerts in
  mkConn appID' stringID' [] ∅ appCert None None SigNil SigNil nil_chan nil_chan
    status' true.

(** [func LaunchConnection(appID, appString, isPushEnabled, appCert AppCert, isLogging) error]
    on [mapAPNS]: the error, the map afterwards and the goroutines started.
    [&appCert] is the address of the parameter. *)
Definition LaunchConnection (env : world) (appID' : Z) (appString : string)
    (isPushEnabled : Z) (appCert : AppCert) (isLogging' : bool)
    (mapAPNS : gmap Z connectionAPNS)
    : outcome (option string * gmap Z connectionAPNS * list goroutine) :=
  if decide (isPushEnabled = 1) then
    let connection := newConnection appID' appString (Some appCert) in
    '(err, connection, gos) ← launch env isLogging' connection;
    match err with
    | Some e => mret (Some e, mapAPNS, gos)
    | None => mret (None, <[appID' := connection]> mapAPNS, gos)
    end
  else mret (None, mapAPNS, []).

(** [func PushOne(appID int, payload apns.Payload)] *)
Definition PushOne (appID' : Z) (payload : Payload) (mapAPNS : gmap Z connectionAPNS)
    : outcome (gmap Z connectionAPNS) :=
  match mapAPNS !! appID' with
  | Some connection =>
      connection ← pushOne payload connection;
      mret (<[appID' := connection]> mapAPNS)
  | None => mret mapAPNS
  end.

(** [func CloseConnection(appID int)] *)
Definition CloseConnection (appID' : Z) (mapAPNS : gmap Z connectionAPNS)
    : outcome (gmap Z connectionAPNS) :=
  match mapAPNS !! appID' with
  | Some connection =>
      connection ← close connection;
      mret (<[appID' := connection]> mapAPNS)
  | None => mret mapAPNS
  end.

(** [func CloseAllConnections()]: [close] on every manager of the map.  Go
    visits the keys of a map in an order it does not specify; [order] is the
    order of that visit. *)
Fixpoint CloseAllConnections (order : list Z) (mapAPNS : gmap Z connectionAPNS)
    : outcome (gmap Z connectionAPNS) :=
  match order with
  | [] => mret mapAPNS
  | k :: order' =>
      mapAPNS ← CloseConnection k mapAPNS;
      CloseAllConnections order' mapAPNS
  end.

(** [func InitURLs(isDev bool)]: the values it gives [pushURL] and
    [feedbackURL]. *)
Definition InitURLs (isDev : bool) : string * string :=
  if isDev
  then ("gateway.sandbox.push.apple.com", "feedback.sandbox.push.apple.com")
  else ("gateway.push.apple.com", "feedback.push.apple.com").

(** * Notions used in the statements *)

(** ** The cache as a window of the hand-overs; room on the channels *)

(** The largest cache size for which the index arithmetic cannot wrap. *)
Definition maxCache : Z := 2 ^ 61.

(** What a ring of [size] slots holds, oldest first, after the payloads of
    [hist] were written into it one after the other: the last [size] of
    them, preceded by untouched slots while fewer than [size] were written. *)
Definition window (size : nat) (hist : list Payload) : list Payload :=
  replicate (size - length hist) zeroPayload ++ drop (length hist - size) hist.

(** The cache and its cursor hold the window of what the goroutine has
    handed over: reading the ring from the slot after the cursor gives
    [window size (wire w)]. *)
Record cacheInv (size : Z) (w : socketState) : Prop := mkCacheInv {
  inv_size : intCacheSize w = size;
  inv_len : Z.of_nat (length (payloadCache w)) = size;
  inv_idx : 0 <= intPayloadIdx w < size;
  inv_slots : ∀ j : nat, Z.of_nat j < size →
    payloadCache w !! Z.to_nat ((intPayloadIdx w + 1 + Z.of_nat j) `mod` size)
    = window (Z.to_nat size) (wire w) !! j
}.

(** Room for [k] more entries on the log channel, or logging switched off. *)
Definition logRoom (k : nat) (a : connectionAPNS) : Prop :=
  isLogging a = false ∨ (length (buf (chanLog a)) + k <= capacity (chanLog a))%nat.

(** Room for [k] more payloads on the send channel. *)
Definition sendRoom (k : nat) (a : connectionAPNS) : Prop :=
  (length (buf (chanSend a)) + k <= capacity (chanSend a))%nat.

(** The manager after one entry went onto the log channel. *)
Definition logged (sid : Z) (msg : string) (a : connectionAPNS) : connectionAPNS :=
  if isLogging a
  then set_chanLog (Chan (buf (chanLog a) ++ [mkEntry sid msg]) (capacity (chanLog a))) a
  else a.

(** Two managers that differ at most in the log channel. *)
Definition sameButLog (a a' : connectionAPNS) : Prop :=
  a' = set_chanLog (chanLog a') a.

(** ** Scenario data *)

(** A payload named by one letter. *)
Definition payloadOf (s : string) : Payload := mkPayload s s "" "".

(** An active manager with the given send queue, logging off. *)
Definition scenarioConn (queue : list Payload) : connectionAPNS :=
  mkConn 1 "app" [] (<[2 := "APN2: "]> (<[1 := "APN1: "]> ∅)) None None None
    SigOpen SigOpen (Chan queue 100) (Chan [] 100) ApnsActive false.

(** The locals a step leaves, or the old ones if it did not complete. *)
Definition localsAfter (w : socketState) (r : outcome (connectionAPNS * socketState))
    : socketState :=
  match r with Done (_, w') => w' | _ => w end.

(** The goroutine of socket [sid] with a cache of [size] slots, connected,
    after it took the payloads [ps] off the queue one by one and handed each
    over. *)
Definition afterSends (size sid : Z) (ps : list Payload) : socketState :=
  fold_left
    (λ w p, localsAfter w (innerSelect sid (CaseSend true) (scenarioConn [p]) w))
    ps
    (localsAfter (launchSocket_locals size)
       (connectStep sid ConnOk (scenarioConn []) (launchSocket_locals size))).

(** A closure reporting [n] unsent payloads and no error payload. *)
Definition closureOf (n : nat) : ConnectionClose :=
  mkClose (replicate n zeroPayload) "EOF" None false.

(** The payloads named 1, 2, ..., [n]. *)
Definition numbered (n : nat) : list Payload :=
  (λ i : nat, payloadOf (pretty (Z.of_nat i))) <$> seq 1 n.

(** ** One manager and its pair of goroutines *)

(** [launch] starts [launchSocket] twice; each call has its own local
    variables, and both work on the one manager. *)
Record pairState : Type := mkPair {
  manager : connectionAPNS;
  socket1 : socketState;
  socket2 : socketState
}.

(** What can happen next to a launched manager: a caller pushes a payload or
    closes the manager, or one of the two goroutines takes a turn. *)
Inductive pairEvent : Type :=
| EvSubmit (payload : Payload)
| EvClose
| EvConnect (sid : Z) (r : connectResult)
| EvSelect (sid : Z) (c : selectCase)
| EvExit (sid : Z) (c : exitCase).

(** The local variables of the goroutine of socket [sid]. *)
Definition socketOf (sid : Z) (s : pairState) : socketState :=
  if decide (sid = 1) then socket1 s else socket2 s.

(** The pair after the goroutine of socket [sid] took a turn. *)
Definition withSocket (sid : Z) (a : connectionAPNS) (w : socketState)
    (s : pairState) : pairState :=
  if decide (sid = 1) then mkPair a w (socket2 s) else mkPair a (socket1 s) w.

(** One event on the pair. *)
Definition pairStep (ev : pairEvent) (s : pairState) : outcome pairState :=
  match ev with
  | EvSubmit payload =>
      a ← pushOne payload (manager s);
      mret (mkPair a (socket1 s) (socket2 s))
  | EvClose =>
      a ← close (manager s);
      mret (mkPair a (socket1 s) (socket2 s))
  | EvConnect sid r =>
      '(a, w) ← connectStep sid r (manager s) (socketOf sid s);
      mret (withSocket sid a w s)
  | EvSelect sid c =>
      '(a, w) ← innerSelect sid c (manager s) (socketOf sid s);
      mret (withSocket sid a w s)
  | EvExit sid c =>
      a ← launchSocket_exit sid c (manager s) (socketOf sid s);
      mret (mkPair a (socket1 s) (socket2 s))
  end.

(** The events of [evs] one after the other. *)
Fixpoint pairRun (evs : list pairEvent) (s : pairState) : outcome pairState :=
  match evs with
  | [] => mret s
  | ev :: evs' => s ← pairStep ev s; pairRun evs' s
  end.

(** A caller pushes each payload of [ps] and the goroutine of socket [sid]
    hands it to the transport before the next is pushed. *)
Definition handOvers (sid : Z) (ps : list Payload) : list pairEvent :=
  ps ≫= λ p, [EvSubmit p; EvSelect sid (CaseSend true)].

(** A world in which the log file opens and the feedback service has
    nothing to report. *)
Definition quietWorld : world :=
  mkWorld "gateway.sandbox.push.apple.com" "feedback.sandbox.push.apple.com"
    (λ _, None) (λ _, inl []).

(** A manager as [LaunchConnection] creates it, launched in [quietWorld]. *)
Definition launched (isLogging' : bool) : outcome pairState :=
  '(_, a, _) ← launch quietWorld isLogging'
                 (newConnection 7 "app" (Some (mkAppCert 7 1 [] [])));
  mret (mkPair a launchSocket_init launchSocket_init).

(** [pushOne] called for each payload in turn. *)
Fixpoint pushMany (ps : list Payload) (a : connectionAPNS) : outcome connectionAPNS :=
  match ps with
  | [] => mret a
  | p :: ps' => a ← pushOne p a; pushMany ps' a
  end.

(** ** Runs of closures *)

(** Runs of one goroutine in which exactly [K] closures are handled and no
    payload is handed over: reconnections and send attempts that time out
    may come in between. *)
Inductive closuresOnly : nat → socketState → socketState → Prop :=
| co_done w : closuresOnly 0 w w
| co_connect K sid r a a' w w1 w2 :
    connectStep sid r a w = Done (a', w1) →
    closuresOnly K w1 w2 → closuresOnly K w w2
| co_timeout K sid a a' w w1 w2 :
    innerSelect sid (CaseSend false) a w = Done (a', w1) →
    closuresOnly K w1 w2 → closuresOnly K w w2
| co_close K sid ce a a' w w1 w2 :
    innerSelect sid (CaseClose ce) a w = Done (a', w1) →
    closuresOnly K w1 w2 → closuresOnly (S K) w w2.

(** ** Notions for the further properties *)

(** Two managers that differ at most in the three channels the goroutines
    work on: the send channel, the log channel and the stop signal of the
    log. *)
Definition sameButChannels (a a' : connectionAPNS) : Prop :=
  a' = set_chanDoneLog (chanDoneLog a')
         (set_chanLog (chanLog a') (set_chanSend (chanSend a') a)).

(** What [launch] leaves and [close] keeps: an Active manager has an open
    done channel. *)
Definition doneOpen (a : connectionAPNS) : Prop :=
  status a = ApnsActive → chanDone a = SigOpen.

(** The events of a caller pushing a payload or a goroutine handing one to
    the transport. *)
Definition isTraffic (ev : pairEvent) : Prop :=
  match ev with
  | EvSubmit _ => True
  | EvSelect _ (CaseSend true) => True
  | _ => False
  end.

(** The payloads pushed by the callers along a run. *)
Fixpoint submitted (evs : list pairEvent) : list Payload :=
  match evs with
  | [] => []
  | EvSubmit p :: evs' => p :: submitted evs'
  | _ :: evs' => submitted evs'
  end.

(** The line [logListener] prints for an entry. *)
Definition rendered (a : connectionAPNS) (e : logEntry) : option string :=
  (λ prefix, prefix +:+ message e) <$> loggers a !! socketID e.

(** * Properties *)

(** ** Go arithmetic in range *)

Lemma wrap64_small (z : Z) : - 2 ^ 63 <= z < 2 ^ 63 → wrap64 z = z.
Proof.
  intros Hz. unfold wrap64.
  rewrite Z.mod_small by lia. lia.
Qed.

Lemma int_rem_mod (x y : Z) : 0 <= x → 0 < y → int_rem x y = x `mod` y.
Proof. intros Hx Hy. unfold int_rem. apply Z.rem_mod_nonneg; lia. Qed.

(** The slot the replay loop reads at step [i], and the slot a send writes. *)
Lemma replay_index (cur size : Z) (i : nat) :
  0 < size <= maxCache → 0 <= cur < size → (0 < i)%nat → Z.of_nat i <= size →
  int_rem (int_add (int_sub (int_add cur size) (Z.of_nat i)) 1) size
  = (cur + size - Z.of_nat i + 1) `mod` size.
Proof.
  unfold maxCache. intros Hs Hc Hi Hle.
  unfold int_add, int_sub.
  rewrite (wrap64_small (cur + size)) by lia.
  rewrite (wrap64_small (cur + size - Z.of_nat i)) by lia.
  rewrite wrap64_small by lia.
  apply int_rem_mod; lia.
Qed.

Lemma send_index (cur size : Z) :
  0 < size <= maxCache → 0 <= cur < size →
  int_rem (int_add cur 1) size = (cur + 1) `mod` size.
Proof.
  unfold maxCache. intros Hs Hc. unfold int_add.
  rewrite wrap64_small by lia. apply int_rem_mod; lia.
Qed.

(** ** The window of a history *)

Lemma window_length (size : nat) (hist : list Payload) :
  length (window size hist) = size.
Proof.
  unfold window. rewrite length_app, length_replicate, length_drop. lia.
Qed.

Lemma window_snoc (size : nat) (hist : list Payload) (p : Payload) :
  (0 < size)%nat →
  window size (hist ++ [p]) = drop 1 (window size hist) ++ [p].
Proof.
  intros Hs. unfold window. rewrite length_app. simpl.
  destruct (decide (length hist < size)%nat) as [Hlt|Hge].
  - replace (length hist + 1 - size)%nat with 0%nat by lia.
    replace (length hist - size)%nat with 0%nat by lia.
    rewrite !drop_0.
    replace (size - length hist)%nat with (S (size - (length hist + 1))) by lia.
    simpl. rewrite drop_0. by rewrite <- app_assoc.
  - replace (size - (length hist + 1))%nat with 0%nat by lia.
    replace (size - length hist)%nat with 0%nat by lia.
    simpl. rewrite drop_drop.
    rewrite drop_app_le by lia.
    by replace (length hist + 1 - size)%nat with (length hist - size + 1)%nat by lia.
Qed.

Lemma window_recent (size n : nat) (hist : list Payload) :
  (n <= size)%nat → (n <= length hist)%nat →
  drop (size - n) (window size hist) = drop (length hist - n) hist.
Proof.
  intros Hn Hh. unfold window.
  rewrite drop_app_ge by (rewrite length_replicate; lia).
  rewrite length_replicate, drop_drop. f_equal. lia.
Qed.

Lemma window_all (size : nat) (hist : list Payload) :
  (size <= length hist)%nat → window size hist = drop (length hist - size) hist.
Proof.
  intros H. unfold window. by replace (size - length hist)%nat with 0%nat by lia.
Qed.

(** ** The cache of one goroutine *)

Lemma cacheInv_init (size : Z) :
  0 < size <= maxCache → cacheInv size (launchSocket_locals size).
Proof.
  intros Hs. assert (Hm := Hs). unfold maxCache in Hm.
  split; simpl.
  - done.
  - rewrite length_replicate. lia.
  - unfold int_sub. rewrite wrap64_small by lia. lia.
  - intros j Hj. unfold window. simpl. rewrite app_nil_r, Nat.sub_0_r.
    assert (0 <= (int_sub size 1 + 1 + Z.of_nat j) `mod` size < size)
      by (apply Z.mod_pos_bound; lia).
    rewrite !lookup_replicate_2 by lia. done.
Qed.

(** A hand-over writes the slot after the cursor and moves the cursor there. *)
Lemma cacheInv_send (size : Z) (w : socketState) (p : Payload) (cache : list Payload) :
  0 < size <= maxCache → cacheInv size w →
  go_store (payloadCache w) (int_rem (int_add (intPayloadIdx w) 1) (intCacheSize w)) p
    = Done cache →
  cacheInv size
    (mkSocket (bShutdown w) (bConnectionGood w) (connLast w) (intCacheSize w)
       (int_rem (int_add (intPayloadIdx w) 1) (intCacheSize w)) cache 1
       (wire w ++ [p])).
Proof.
  intros Hs [Hsz Hlen Hidx Hslots] Hst.
  rewrite Hsz in *. rewrite send_index in * by done.
  set (cur := intPayloadIdx w) in *.
  assert (Hb : 0 <= (cur + 1) `mod` size < size) by (apply Z.mod_pos_bound; lia).
  unfold go_store in Hst. destruct (decide _) as [_|Hn]; [|lia].
  injection Hst as <-.
  split; simpl.
  - done.
  - rewrite length_insert. lia.
  - done.
  - intros j Hj.
    rewrite window_snoc by lia.
    destruct (decide (Z.of_nat j = size - 1)) as [Hlast|Hnot].
    + replace (((cur + 1) `mod` size + 1 + Z.of_nat j) `mod` size)
        with ((cur + 1) `mod` size).
      2:{ replace ((cur + 1) `mod` size + 1 + Z.of_nat j)
            with ((cur + 1) `mod` size + 1 * size) by lia.
          rewrite Z.mod_add by lia. by rewrite Z.mod_mod by lia. }
      rewrite list_lookup_insert_eq by lia.
      rewrite lookup_app_r; rewrite length_drop, window_length; [|lia].
      by replace (j - (Z.to_nat size - 1))%nat with 0%nat by lia.
    + assert (Hstep : ((cur + 1) `mod` size + 1 + Z.of_nat j) `mod` size
                      = (cur + 1 + Z.of_nat (S j)) `mod` size).
      { rewrite <- (Zplus_mod_idemp_l ((cur + 1) `mod` size + 1)).
        rewrite <- (Zplus_mod_idemp_l ((cur + 1) `mod` size)).
        rewrite Z.mod_mod by lia.
        rewrite (Zplus_mod_idemp_l (cur + 1)), Zplus_mod_idemp_l.
        f_equal. lia. }
      rewrite Hstep.
      assert (Hb' : 0 <= (cur + 1 + Z.of_nat (S j)) `mod` size < size)
        by (apply Z.mod_pos_bound; lia).
      assert (Hne : (cur + 1 + Z.of_nat (S j)) `mod` size ≠ (cur + 1) `mod` size).
      { intros Heq.
        assert (Hd : (Z.of_nat (S j)) `mod` size = 0).
        { replace (Z.of_nat (S j)) with ((cur + 1 + Z.of_nat (S j)) - (cur + 1)) by lia.
          rewrite Zminus_mod, Heq, Z.sub_diag. by rewrite Z.mod_0_l by lia. }
        rewrite Z.mod_small in Hd by lia. lia. }
      rewrite list_lookup_insert_ne by lia.
      rewrite Hslots by lia.
      rewrite lookup_app_l by (rewrite length_drop, window_length; lia).
      by rewrite lookup_drop.
Qed.

(** ** The log wrappers only touch the log channel *)

Lemma sameButLog_refl (a : connectionAPNS) : sameButLog a a.
Proof. by destruct a. Qed.

Lemma sameButLog_trans (a b c : connectionAPNS) :
  sameButLog a b → sameButLog b c → sameButLog a c.
Proof. unfold sameButLog. intros -> ->. by destruct a. Qed.

Lemma sameButLog_fields (a a' : connectionAPNS) :
  sameButLog a a' →
  status a' = status a ∧ chanSend a' = chanSend a ∧ isLogging a' = isLogging a ∧
  chanDone a' = chanDone a ∧ chanDoneLog a' = chanDoneLog a ∧
  fileLog a' = fileLog a ∧ loggers a' = loggers a.
Proof. intros ->. by destruct a. Qed.

Lemma logged_same (sid : Z) (msg : string) (a : connectionAPNS) :
  sameButLog a (logged sid msg a).
Proof. unfold logged, sameButLog. by destruct a as [? ? ? ? ? ? ? ? ? ? ? ? []]. Qed.

Lemma logEnqueue_room (sid : Z) (msg : string) (a : connectionAPNS) :
  logRoom 1 a → logEnqueue sid msg a = Done (logged sid msg a).
Proof.
  intros [Hoff|Hroom]; unfold logEnqueue, logged.
  - by rewrite Hoff.
  - destruct (isLogging a); [|done].
    unfold chan_send. destruct (decide _); [done|lia].
Qed.

Lemma logged_room (k : nat) (sid : Z) (msg : string) (a : connectionAPNS) :
  logRoom (S k) a → logRoom k (logged sid msg a).
Proof.
  unfold logRoom, logged. intros [Hoff|Hroom].
  - left. by rewrite Hoff.
  - destruct (isLogging a) eqn:E; [|by left].
    right. simpl. rewrite length_app. simpl. lia.
Qed.

Lemma logRoom_le (k k' : nat) (a : connectionAPNS) :
  (k' <= k)%nat → logRoom k a → logRoom k' a.
Proof. unfold logRoom. intros Hle [?|?]; [by left|right; lia]. Qed.

(** Whatever a log wrapper does, when it returns only the log channel has
    changed. *)
Lemma logEnqueue_done (sid : Z) (msg : string) (a a' : connectionAPNS) :
  logEnqueue sid msg a = Done a' → sameButLog a a'.
Proof.
  unfold logEnqueue. destruct (isLogging a) eqn:E.
  - unfold chan_send. destruct (decide _); [|done].
    simpl. intros [= <-]. by destruct a.
  - intros [= <-]. apply sameButLog_refl.
Qed.

(** ** [pushOne] *)

Lemma pushOne_active (p : Payload) (a : connectionAPNS) :
  status a = ApnsActive → sendRoom 1 a →
  pushOne p a = Done (set_chanSend (Chan (buf (chanSend a) ++ [p]) (capacity (chanSend a))) a).
Proof.
  unfold pushOne, sendRoom. intros Hs Hr.
  destruct (decide _); [|done].
  unfold chan_send. destruct (decide _); [done|lia].
Qed.

Lemma pushOne_inactive (p : Payload) (a : connectionAPNS) :
  status a ≠ ApnsActive → pushOne p a = Done a.
Proof. unfold pushOne. intros Hs. by destruct (decide _). Qed.

(** ** The replay loop reads the end of the window *)

Lemma replayLoop_window (cache : list Payload) (cur size : Z) (win : list Payload)
    (n : nat) (a : connectionAPNS) :
  0 < size <= maxCache →
  Z.of_nat (length cache) = size →
  0 <= cur < size →
  length win = Z.to_nat size →
  (∀ j : nat, Z.of_nat j < size →
     cache !! Z.to_nat ((cur + 1 + Z.of_nat j) `mod` size) = win !! j) →
  Z.of_nat n <= size →
  status a = ApnsActive →
  sendRoom n a →
  replayLoop cache cur size n a
  = Done (set_chanSend
            (Chan (buf (chanSend a) ++ drop (Z.to_nat size - n) win)
                  (capacity (chanSend a))) a).
Proof.
  intros Hs Hlen Hcur Hwin Hslots.
  revert a. induction n as [|n IH]; intros a Hn Hact Hroom.
  - simpl. rewrite Nat.sub_0_r, drop_ge, app_nil_r by lia. by destruct a, chanSend0.
  - cbn [replayLoop].
    rewrite replay_index by lia.
    set (j := (Z.to_nat size - S n)%nat).
    replace ((cur + size - Z.of_nat (S n) + 1) `mod` size)
      with ((cur + 1 + Z.of_nat j) `mod` size) by (f_equal; lia).
    assert (Hb : 0 <= (cur + 1 + Z.of_nat j) `mod` size < size)
      by (apply Z.mod_pos_bound; lia).
    destruct (lookup_lt_is_Some_2 win j) as [p Hp]; [lia|].
    unfold go_index. destruct (decide _) as [_|Hbad]; [|lia].
    rewrite Hslots, Hp by lia. simpl.
    rewrite pushOne_active by (done || (unfold sendRoom in *; lia)).
    simpl. rewrite IH.
    + simpl. rewrite (drop_S win p j Hp), <- app_assoc. simpl.
      replace (Z.to_nat size - n)%nat with (S j) by lia. done.
    + lia.
    + done.
    + unfold sendRoom in *. simpl. rewrite length_app. simpl. lia.
Qed.

(** ** Running the log wrappers *)

Lemma outcome_bind_assoc {A B C : Type} (m : outcome A) (f : A → outcome B)
    (g : B → outcome C) :
  (m ≫= f) ≫= g = m ≫= (λ x, f x ≫= g).
Proof. by destruct m. Qed.

Lemma log_step (k : nat) (sid : Z) (msg : string) (a : connectionAPNS) :
  logRoom (S k) a →
  ∃ a1, logEnqueue sid msg a = Done a1 ∧ sameButLog a a1 ∧ logRoom k a1.
Proof.
  intros Hr. exists (logged sid msg a). split; [|split].
  - apply logEnqueue_room. eapply logRoom_le; [|exact Hr]. lia.
  - apply logged_same.
  - by apply logged_room.
Qed.

(** Peel the next log call off a goal, given room for it. *)
Ltac run_log Hroom a1 :=
  let E := fresh "E" in
  let S := fresh "S" in
  let R := fresh "R" in
  match goal with
  | |- context [logEnqueue ?sid ?msg ?a] =>
      destruct (log_step _ sid msg a Hroom) as (a1 & E & S & R);
      rewrite E; clear E; cbn [mbind outcome_bind mret outcome_ret]
  end.

(** Split a completed step at its first call. *)
Ltac split_done H :=
  match type of H with
  | mbind _ ?m = Done _ =>
      let E := fresh "E" in
      destruct m eqn:E; cbn [mbind outcome_bind mret outcome_ret] in H;
      [|discriminate H|discriminate H]
  end.

(** ** [handleCloseError] with room on both channels *)

Lemma handleCloseError_window (ce : ConnectionClose) (sid : Z)
    (cache : list Payload) (cur size : Z) (win : list Payload) (a : connectionAPNS) :
  0 < size <= maxCache →
  Z.of_nat (length cache) = size →
  0 <= cur < size →
  length win = Z.to_nat size →
  (∀ j : nat, Z.of_nat j < size →
     cache !! Z.to_nat ((cur + 1 + Z.of_nat j) `mod` size) = win !! j) →
  status a = ApnsActive →
  logRoom 3 a →
  sendRoom (length (UnsentPayloads ce) `min` Z.to_nat size) a →
  ∃ aL, sameButLog a aL ∧
    handleCloseError ce sid cache cur a
    = Done (set_chanSend
              (Chan (buf (chanSend a) ++
                     drop (Z.to_nat size - length (UnsentPayloads ce) `min` Z.to_nat size) win)
                    (capacity (chanSend a))) aL).
Proof.
  intros Hs Hlen Hcur Hwin Hslots Hact Hlog Hsend.
  unfold handleCloseError, logPrintln, logPrintf.
  run_log Hlog a1.
  set (N := length (UnsentPayloads ce)) in *.
  assert (∃ a3, sameButLog a a3 ∧
    (a2 ← (if decide (Z.of_nat N > 0)
           then logEnqueue sid
                  (String.concat ""
                     ["List length "; pretty (Z.of_nat N); ", Overflow ";
                      show_bool (UnsentPayloadBufferOverflow ce); nl]) a1
           else mret a1);
     match ErrorPayload ce with
     | Some payload =>
         logEnqueue sid
           (String.concat ""
              ["Payload "; ExtraData payload; " "; Category payload; " ";
               AlertText payload; nl; Token payload; nl]) a2
     | None => mret a2
     end) = Done a3) as (a3 & S3 & E3).
  { destruct (decide (Z.of_nat N > 0)).
    - run_log R a2. destruct (ErrorPayload ce).
      + run_log R0 a3. exists a3. split; [|done].
        eauto using sameButLog_trans.
      + exists a2. split; [|done]. eauto using sameButLog_trans.
    - cbn [mbind outcome_bind mret outcome_ret].
      assert (R' : logRoom 1 a1) by (eapply logRoom_le; [|exact R]; lia).
      destruct (ErrorPayload ce).
      + run_log R' a3. exists a3. split; [|done].
        eauto using sameButLog_trans.
      + exists a1. split; done. }
  exists a3. split; [done|].
  pose proof (sameButLog_fields _ _ S3) as (Hst & Hcs & _).
  rewrite <- outcome_bind_assoc, E3. cbn [mbind outcome_bind mret outcome_ret].
  destruct (decide (Z.of_nat N > 0)) as [Hpos|Hzero].
  - rewrite Hlen.
    assert (Hn : Z.to_nat (if decide (Z.of_nat N > size) then size else Z.of_nat N)
                 = (N `min` Z.to_nat size)%nat)
      by (destruct (decide _); lia).
    rewrite Hn.
    rewrite (replayLoop_window cache cur size win); try done.
    + by rewrite Hcs.
    + lia.
    + by rewrite Hst.
    + unfold sendRoom in *. by rewrite Hcs.
  - replace N with 0%nat by lia. simpl.
    rewrite Nat.sub_0_r, drop_ge, app_nil_r by lia.
    f_equal. rewrite <- Hcs. by destruct a3, chanSend0.
Qed.

(** ** What the steps of [launchSocket] do to its local variables *)

Lemma cacheInv_ext (size : Z) (w w' : socketState) :
  intCacheSize w' = intCacheSize w →
  intPayloadIdx w' = intPayloadIdx w →
  payloadCache w' = payloadCache w →
  wire w' = wire w →
  cacheInv size w → cacheInv size w'.
Proof.
  intros H1 H2 H3 H4 [? ? ? ?]. split; rewrite ?H1, ?H2, ?H3, ?H4; done.
Qed.

Lemma connectStep_locals (sid : Z) (r : connectResult) (a a' : connectionAPNS)
    (w w' : socketState) :
  connectStep sid r a w = Done (a', w') →
  intCacheSize w' = intCacheSize w ∧ intPayloadIdx w' = intPayloadIdx w ∧
  payloadCache w' = payloadCache w ∧ wire w' = wire w ∧
  exponentialBackoff w' = exponentialBackoff w.
Proof.
  unfold connectStep. intros H. split_done H.
  destruct r; split_done H.
  - by injection H as <- <-.
  - by injection H as <- <-.
  - destruct (sig_ready _); [|discriminate H].
    split_done H. by injection H as <- <-.
Qed.

(** The local variables after a turn of the inner loop, case by case. *)
Lemma innerSelect_locals (sid : Z) (c : selectCase) (a a' : connectionAPNS)
    (w w' : socketState) :
  innerSelect sid c a w = Done (a', w') →
  match c with
  | CaseSend true =>
      ∃ p rest cache,
        buf (chanSend a) = p :: rest ∧
        go_store (payloadCache w)
          (int_rem (int_add (intPayloadIdx w) 1) (intCacheSize w)) p = Done cache ∧
        w' = mkSocket (bShutdown w) (bConnectionGood w) (connLast w) (intCacheSize w)
               (int_rem (int_add (intPayloadIdx w) 1) (intCacheSize w)) cache 1
               (wire w ++ [p])
  | CaseSend false => w' = w
  | CaseClose _ =>
      w' = mkSocket (bShutdown w) false (connLast w) (intCacheSize w)
             (intPayloadIdx w) (payloadCache w)
             (if decide (exponentialBackoff w < backoffLimit)
              then int_mul (exponentialBackoff w) 2 else exponentialBackoff w)
             (wire w)
  | CaseDone =>
      w' = mkSocket true (bConnectionGood w) (connLast w) (intCacheSize w)
             (intPayloadIdx w) (payloadCache w) (exponentialBackoff w) (wire w)
  end.
Proof.
  unfold innerSelect. intros H. destruct c as [[]|ce|].
  - unfold chan_recv in H. destruct (buf (chanSend a)) as [|p rest] eqn:Eb;
      [discriminate H|].
    cbn [mbind outcome_bind mret outcome_ret] in H.
    split_done H. split_done H.
    injection H as <- <-. by exists p, rest, a1.
  - unfold chan_recv in H. destruct (buf (chanSend a)) as [|p rest] eqn:Eb;
      [discriminate H|].
    cbn [mbind outcome_bind mret outcome_ret] in H.
    split_done H. by injection H as <- <-.
  - split_done H. split_done H. by injection H as <- <-.
  - destruct (sig_ready _); [|discriminate H].
    split_done H. by injection H as <- <-.
Qed.

Lemma socketReach_cacheInv (size : Z) (w : socketState) :
  0 < size <= maxCache → socketReach size w → cacheInv size w.
Proof.
  intros Hs Hr. induction Hr as [|sid r a w a' w' _ IH _ Hstep
                                 |sid c a w a' w' _ IH _ _ Hstep].
  - by apply cacheInv_init.
  - apply connectStep_locals in Hstep as (H1 & H2 & H3 & H4 & _).
    by apply (cacheInv_ext size w).
  - apply innerSelect_locals in Hstep. destruct c as [[]|ce|].
    + destruct Hstep as (p & rest & cache & _ & Hst & ->).
      by apply cacheInv_send.
    + by subst.
    + subst. by apply (cacheInv_ext size w).
    + subst. by apply (cacheInv_ext size w).
Qed.

(** ** The closure case of the inner loop, with room on both channels *)

Lemma innerSelect_close (size : Z) (sid : Z) (ce : ConnectionClose)
    (a : connectionAPNS) (w : socketState) :
  0 < size <= maxCache →
  cacheInv size w →
  status a = ApnsActive →
  logRoom 4 a →
  sendRoom (length (UnsentPayloads ce) `min` Z.to_nat size) a →
  ∃ aL, sameButLog a aL ∧
    innerSelect sid (CaseClose ce) a w
    = Done (set_chanSend
              (Chan (buf (chanSend a) ++
                     drop (Z.to_nat size - length (UnsentPayloads ce) `min` Z.to_nat size)
                          (window (Z.to_nat size) (wire w)))
                    (capacity (chanSend a))) aL,
            mkSocket (bShutdown w) false (connLast w) (intCacheSize w)
              (intPayloadIdx w) (payloadCache w)
              (if decide (exponentialBackoff w < backoffLimit)
               then int_mul (exponentialBackoff w) 2 else exponentialBackoff w)
              (wire w)).
Proof.
  intros Hs [Hsz Hlen Hidx Hslots] Hact Hlog Hsend.
  unfold innerSelect, logPrintln.
  run_log Hlog a1.
  pose proof (sameButLog_fields _ _ S) as (Hst & Hcs & _).
  destruct (handleCloseError_window ce sid (payloadCache w) (intPayloadIdx w) size
              (window (Z.to_nat size) (wire w)) a1) as (aL & SL & EL); try done.
  - apply window_length.
  - by rewrite Hst.
  - unfold sendRoom in *. by rewrite Hcs.
  - exists aL. split; [by eapply sameButLog_trans|].
    rewrite EL. cbn [mbind outcome_bind mret outcome_ret]. by rewrite Hcs.
Qed.

(** ** The hand-over case of the inner loop *)

Lemma innerSelect_send (size sid : Z) (handedOver : bool) (p : Payload)
    (rest : list Payload) (a : connectionAPNS) (w : socketState) :
  0 < size <= maxCache →
  cacheInv size w →
  buf (chanSend a) = p :: rest →
  logRoom 1 a →
  ∃ aL, sameButLog (set_chanSend (Chan rest (capacity (chanSend a))) a) aL ∧
    innerSelect sid (CaseSend handedOver) a w
    = Done (aL,
            if handedOver then
              mkSocket (bShutdown w) (bConnectionGood w) (connLast w) (intCacheSize w)
                ((intPayloadIdx w + 1) `mod` size)
                (<[Z.to_nat ((intPayloadIdx w + 1) `mod` size) := p]> (payloadCache w))
                1 (wire w ++ [p])
            else w).
Proof.
  intros Hs [Hsz Hlen Hidx Hslots] Hq Hlog.
  unfold innerSelect, chan_recv, logPrintf. rewrite Hq.
  cbn [mbind outcome_bind mret outcome_ret].
  assert (Hlog' : logRoom 1 (set_chanSend (Chan rest (capacity (chanSend a))) a))
    by (by destruct a).
  run_log Hlog' a1.
  exists a1. split; [done|].
  destruct handedOver; [|done].
  rewrite Hsz, send_index by done.
  assert (Hb : 0 <= (intPayloadIdx w + 1) `mod` size < size)
    by (apply Z.mod_pos_bound; lia).
  unfold go_store. destruct (decide _) as [_|Hbad]; [done|lia].
Qed.

(** The scenario states are states of the goroutine. *)
Lemma afterSends_reach (size sid : Z) (ps : list Payload) :
  0 < size <= maxCache → socketReach size (afterSends size sid ps).
Proof.
  intros Hs. unfold afterSends.
  set (w0 := localsAfter _ _).
  assert (H0 : socketReach size w0 ∧ bShutdown w0 = false ∧ bConnectionGood w0 = true).
  { split; [|done].
    by eapply (reach_connect size sid ConnOk (scenarioConn [])
                 (launchSocket_locals size)); [apply reach_init| |]. }
  clearbody w0. revert w0 H0.
  induction ps as [|p ps IH]; intros w0 (Hr & Hsh & Hgood); [done|].
  cbn [fold_left]. apply IH.
  destruct (innerSelect_send size sid true p [] (scenarioConn [p]) w0)
    as (aL & _ & E); try done.
  { by apply socketReach_cacheInv. }
  { by left. }
  rewrite E. cbn [localsAfter]. split; [|done].
  eapply reach_select; [exact Hr|done|done|exact E].
Qed.

(** ** The replay of a goroutine's own hand-overs *)

(** X24: a closure handled in the inner loop that reports N unsent payloads,
    with N at most the cache size and at least N payloads handed over by
    this goroutine before, puts exactly the N most recent of this
    goroutine's own hand-overs back on the send channel, oldest first; the
    payload pushed at step i (i from N down to 1) is the one in slot
    (cursor + size - i + 1) mod size of its cache; nothing is handed to the
    transport.  What the other goroutine of the pair handed over is not
    counted and not replayed. *)
Theorem replay_recent_in_order (size sid : Z) (ce : ConnectionClose)
    (a : connectionAPNS) (w : socketState) :
  0 < size <= maxCache →
  socketReach size w →
  status a = ApnsActive →
  Z.of_nat (length (UnsentPayloads ce)) <= size →
  (length (UnsentPayloads ce) <= length (wire w))%nat →
  logRoom 4 a →
  sendRoom (length (UnsentPayloads ce)) a →
  let n := length (UnsentPayloads ce) in
  let items := drop (length (wire w) - n) (wire w) in
  ∃ a' w',
    innerSelect sid (CaseClose ce) a w = Done (a', w') ∧
    buf (chanSend a') = buf (chanSend a) ++ items ∧
    length items = n ∧
    (∀ i : nat, (1 <= i <= n)%nat →
       payloadCache w !! Z.to_nat ((intPayloadIdx w + size - Z.of_nat i + 1) `mod` size)
       = items !! (n - i)%nat) ∧
    wire w' = wire w ∧
    status a' = ApnsActive.
Proof.
  intros Hs Hr Hact Hn Hh Hlog Hsend n items.
  pose proof (socketReach_cacheInv size w Hs Hr) as Hinv.
  assert (Hmin : (n `min` Z.to_nat size)%nat = n) by lia.
  destruct (innerSelect_close size sid ce a w) as (aL & SL & EL); try done.
  { fold n. by rewrite Hmin. }
  fold n in EL. rewrite Hmin in EL.
  rewrite window_recent in EL by lia. fold items in EL.
  pose proof (sameButLog_fields _ _ SL) as (Hst & _).
  eexists _, _. split; [exact EL|].
  split; [done|]. split; [|split; [|split]].
  - unfold items. rewrite length_drop. lia.
  - intros i Hi. destruct Hinv as [_ _ Hidx Hslots].
    replace ((intPayloadIdx w + size - Z.of_nat i + 1) `mod` size)
      with ((intPayloadIdx w + 1 + Z.of_nat (Z.to_nat size - i)) `mod` size)
      by (f_equal; lia).
    rewrite Hslots by lia.
    unfold items. rewrite <- (window_recent (Z.to_nat size)) by lia.
    rewrite lookup_drop. f_equal. lia.
  - done.
  - simpl. by rewrite Hst.
Qed.

(** Cache of 4, six sends A..F, a closure reporting 3: D, E, F go back on
    the queue in that order. *)
Lemma replay_recent_in_order_witness :
  ∃ a' w',
    innerSelect 1 (CaseClose (closureOf 3)) (scenarioConn [])
      (afterSends 4 1 (payloadOf <$> ["A"; "B"; "C"; "D"; "E"; "F"]))
    = Done (a', w') ∧
    buf (chanSend a') = payloadOf <$> ["D"; "E"; "F"].
Proof.
  destruct (replay_recent_in_order 4 1 (closureOf 3) (scenarioConn [])
              (afterSends 4 1 (payloadOf <$> ["A"; "B"; "C"; "D"; "E"; "F"])))
    as (a' & w' & E & Hq & _).
  - unfold maxCache. lia.
  - apply afterSends_reach. unfold maxCache. lia.
  - reflexivity.
  - vm_compute. discriminate.
  - vm_compute. lia.
  - left. reflexivity.
  - unfold sendRoom. vm_compute. lia.
  - exists a', w'. split; [exact E|exact Hq].
Defined.

(** ** The replay of a count above the cache size *)

(** X25: a closure handled in the inner loop that reports more unsent
    payloads than the cache has slots puts exactly as many payloads back on
    the send channel as the cache has slots: the slots of this goroutine's
    cache read once each in ring order from the one after the cursor.  They
    hold the most recent payloads handed over by this goroutine, oldest
    first, after slots never written (zero payloads) if it handed over
    fewer payloads than the cache has slots. *)
Theorem replay_clamped (size sid : Z) (ce : ConnectionClose)
    (a : connectionAPNS) (w : socketState) :
  0 < size <= maxCache →
  socketReach size w →
  status a = ApnsActive →
  size < Z.of_nat (length (UnsentPayloads ce)) →
  logRoom 4 a →
  sendRoom (Z.to_nat size) a →
  ∃ a' w' items,
    innerSelect sid (CaseClose ce) a w = Done (a', w') ∧
    buf (chanSend a') = buf (chanSend a) ++ items ∧
    Z.of_nat (length items) = size ∧
    (∀ k : nat, Z.of_nat k < size →
       items !! k
       = payloadCache w !! Z.to_nat ((intPayloadIdx w + 1 + Z.of_nat k) `mod` size)) ∧
    items = window (Z.to_nat size) (wire w) ∧
    (Z.of_nat (length (wire w)) >= size →
       items = drop (length (wire w) - Z.to_nat size) (wire w)) ∧
    wire w' = wire w.
Proof.
  intros Hs Hr Hact Hn Hlog Hsend.
  pose proof (socketReach_cacheInv size w Hs Hr) as Hinv.
  assert (Hmin : (length (UnsentPayloads ce) `min` Z.to_nat size)%nat = Z.to_nat size)
    by lia.
  destruct (innerSelect_close size sid ce a w) as (aL & SL & EL); try done.
  { by rewrite Hmin. }
  rewrite Hmin, Nat.sub_diag, drop_0 in EL.
  eexists _, _, (window (Z.to_nat size) (wire w)).
  split; [exact EL|].
  split; [done|]. split; [|split; [|split; [|split]]].
  - rewrite window_length. lia.
  - intros k Hk. destruct Hinv as [_ _ _ Hslots]. by rewrite Hslots.
  - done.
  - intros Hge. apply window_all. lia.
  - done.
Qed.

(** Cache of 4, six sends A..F, a closure reporting 10: exactly C, D, E, F
    go back on the queue. *)
Lemma replay_clamped_witness :
  ∃ a' w',
    innerSelect 1 (CaseClose (closureOf 10)) (scenarioConn [])
      (afterSends 4 1 (payloadOf <$> ["A"; "B"; "C"; "D"; "E"; "F"]))
    = Done (a', w') ∧
    buf (chanSend a') = payloadOf <$> ["C"; "D"; "E"; "F"].
Proof.
  destruct (replay_clamped 4 1 (closureOf 10) (scenarioConn [])
              (afterSends 4 1 (payloadOf <$> ["A"; "B"; "C"; "D"; "E"; "F"])))
    as (a' & w' & items & E & Hq & _ & _ & Hit & _).
  - unfold maxCache. lia.
  - apply afterSends_reach. unfold maxCache. lia.
  - reflexivity.
  - vm_compute. reflexivity.
  - left. reflexivity.
  - unfold sendRoom. vm_compute. lia.
  - exists a', w'. split; [exact E|]. rewrite Hq, Hit. reflexivity.
Defined.

(** ** C1 and C2 *)

(** C1 fails on the code, by the defect of C4: each goroutine replays from
    its own cache.  Six payloads are handed over in the order A, B, C, D,
    E, F, by socket 1 and socket 2 in turn; socket 2 then sees a closure
    reporting 3 unsent payloads.  The three most recently sent are D, E, F;
    the code puts B, D, F back on the send channel. *)
Theorem replay_own_sends_only :
  ∃ s,
    (s0 ← launched false;
     pairRun ([EvConnect 1 ConnOk; EvConnect 2 ConnOk] ++
              handOvers 1 [payloadOf "A"] ++ handOvers 2 [payloadOf "B"] ++
              handOvers 1 [payloadOf "C"] ++ handOvers 2 [payloadOf "D"] ++
              handOvers 1 [payloadOf "E"] ++ handOvers 2 [payloadOf "F"] ++
              [EvSelect 2 (CaseClose (closureOf 3))]) s0) = Done s ∧
    wire (socket1 s) = payloadOf <$> ["A"; "C"; "E"] ∧
    wire (socket2 s) = payloadOf <$> ["B"; "D"; "F"] ∧
    buf (chanSend (manager s)) = payloadOf <$> ["B"; "D"; "F"] ∧
    buf (chanSend (manager s)) ≠ payloadOf <$> ["D"; "E"; "F"].
Proof.
  eexists. split; [vm_compute; reflexivity|].
  repeat split. discriminate.
Qed.

(** C2 fails on the code, by the defect of C4: the count is clamped to the
    32 slots and exactly 32 payloads are put back, but they are the slots of
    the cache of the goroutine that sees the closure.  Socket 2 hands over
    the payloads 1 to 33, then socket 1 hands over A, then socket 2 sees a
    closure reporting 40 unsent payloads: the 32 most recently sent are 3 to
    33 and A; the code puts 2 to 33 back.  On caches of 4 slots, with A, C, E
    by socket 1 and B, D, F by socket 2 in turn and a closure reporting 10
    on socket 2, it puts a never-written slot and B, D, F back. *)
Theorem replay_clamped_own_cache :
  (∃ s,
     (s0 ← launched false;
      pairRun ([EvConnect 1 ConnOk; EvConnect 2 ConnOk] ++
               handOvers 2 (numbered 33) ++ handOvers 1 [payloadOf "A"] ++
               [EvSelect 2 (CaseClose (closureOf 40))]) s0) = Done s ∧
     wire (socket1 s) = [payloadOf "A"] ∧
     wire (socket2 s) = numbered 33 ∧
     length (buf (chanSend (manager s))) = 32%nat ∧
     buf (chanSend (manager s)) = drop 1 (numbered 33) ∧
     bool_decide (payloadOf "A" ∈ buf (chanSend (manager s))) = false) ∧
  (∃ s,
     pairRun (handOvers 1 [payloadOf "A"] ++ handOvers 2 [payloadOf "B"] ++
              handOvers 1 [payloadOf "C"] ++ handOvers 2 [payloadOf "D"] ++
              handOvers 1 [payloadOf "E"] ++ handOvers 2 [payloadOf "F"] ++
              [EvSelect 2 (CaseClose (closureOf 10))])
       (mkPair (scenarioConn []) (afterSends 4 1 []) (afterSends 4 2 [])) = Done s ∧
     buf (chanSend (manager s)) = zeroPayload :: (payloadOf <$> ["B"; "D"; "F"])).
Proof.
  split.
  - eexists. split; [vm_compute; reflexivity|]. repeat split.
  - eexists. split; [vm_compute; reflexivity|]. reflexivity.
Qed.

(** ** C3 *)

(** C3 fails on the code: the payload is received from the send channel
    before the nested select; with A alone on the send queue and the timer
    of the nested select firing first, the turn of the inner loop ends with
    A off the queue, not handed to the transport and not in the cache. *)
Lemma send_timeout_loses_item :
  innerSelect 1 (CaseSend false) (scenarioConn [payloadOf "A"]) (afterSends 32 1 [])
  = Done (scenarioConn [], afterSends 32 1 []) ∧
  bool_decide (payloadOf "A" ∈ buf (chanSend (scenarioConn []))) = false ∧
  bool_decide (payloadOf "A" ∈ wire (afterSends 32 1 [])) = false ∧
  bool_decide (payloadOf "A" ∈ payloadCache (afterSends 32 1 [])) = false.
Proof. repeat split; vm_compute; reflexivity. Qed.

(** X26: a turn of the inner loop that receives a payload takes it off the
    send channel before the send attempt, whichever way the attempt ends.
    When the transport accepts it, the payload is handed over, stored in the
    slot after the cursor, the cursor moves there and the backoff is set to
    1.  When the timer fires first, the local variables (cache, cursor,
    backoff, what was handed over) are unchanged. *)
Theorem send_consumes_item (size sid : Z) (handedOver : bool) (p : Payload)
    (rest : list Payload) (a : connectionAPNS) (w : socketState) :
  0 < size <= maxCache →
  socketReach size w →
  buf (chanSend a) = p :: rest →
  logRoom 1 a →
  ∃ a' w',
    innerSelect sid (CaseSend handedOver) a w = Done (a', w') ∧
    buf (chanSend a') = rest ∧
    if handedOver then
      wire w' = wire w ++ [p] ∧
      intPayloadIdx w' = (intPayloadIdx w + 1) `mod` size ∧
      payloadCache w' = <[Z.to_nat (intPayloadIdx w') := p]> (payloadCache w) ∧
      payloadCache w' !! Z.to_nat (intPayloadIdx w') = Some p ∧
      exponentialBackoff w' = 1
    else w' = w.
Proof.
  intros Hs Hr Hq Hlog.
  pose proof (socketReach_cacheInv size w Hs Hr) as Hinv.
  destruct (innerSelect_send size sid handedOver p rest a w) as (aL & SL & E);
    try done.
  pose proof (sameButLog_fields _ _ SL) as (_ & Hcs & _).
  eexists _, _. split; [exact E|]. split.
  - rewrite Hcs. by destruct a.
  - destruct handedOver; [|done]. simpl.
    repeat split; try done.
    destruct Hinv as [_ Hlen Hidx _].
    assert (0 <= (intPayloadIdx w + 1) `mod` size < size)
      by (apply Z.mod_pos_bound; lia).
    apply list_lookup_insert_eq. lia.
Qed.

(** The first payload a goroutine hands over goes to slot 0 of its cache. *)
Lemma send_consumes_item_witness :
  ∃ a' w',
    innerSelect 1 (CaseSend true) (scenarioConn [payloadOf "A"; payloadOf "B"])
      (afterSends 32 1 []) = Done (a', w') ∧
    buf (chanSend a') = [payloadOf "B"] ∧
    wire w' = [payloadOf "A"] ∧
    intPayloadIdx w' = 0 ∧
    exponentialBackoff w' = 1.
Proof.
  destruct (send_consumes_item 32 1 true (payloadOf "A") [payloadOf "B"]
              (scenarioConn [payloadOf "A"; payloadOf "B"]) (afterSends 32 1 []))
    as (a' & w' & E & Hq & Hw & Hi & _ & _ & Hb).
  - unfold maxCache. lia.
  - apply afterSends_reach. unfold maxCache. lia.
  - reflexivity.
  - left. reflexivity.
  - exists a', w'. repeat split; [exact E|exact Hq|exact Hw|rewrite Hi; reflexivity|exact Hb].
Defined.

(** ** C4 *)

(** C4 fails on the code: each [launchSocket] goroutine declares its own
    cache and cursor.  Socket 1 hands over A, socket 2 hands over B, then
    socket 2 sees a closure reporting 2 unsent payloads: it replays an empty
    slot of its own cache and B; A, which only socket 1 cached, is not
    replayed, and both cursors stand at slot 0. *)
Theorem cache_per_goroutine :
  ∃ s,
    (s0 ← launched false;
     pairRun [EvConnect 1 ConnOk; EvConnect 2 ConnOk;
              EvSubmit (payloadOf "A"); EvSelect 1 (CaseSend true);
              EvSubmit (payloadOf "B"); EvSelect 2 (CaseSend true);
              EvSelect 2 (CaseClose (closureOf 2))] s0) = Done s ∧
    buf (chanSend (manager s)) = [zeroPayload; payloadOf "B"] ∧
    wire (socket1 s) = [payloadOf "A"] ∧
    wire (socket2 s) = [payloadOf "B"] ∧
    intPayloadIdx (socket1 s) = 0 ∧
    intPayloadIdx (socket2 s) = 0 ∧
    payloadCache (socket2 s) !! 0%nat = Some (payloadOf "B") ∧
    bool_decide (payloadOf "A" ∈ payloadCache (socket2 s)) = false.
Proof. eexists. split; [vm_compute; reflexivity|]. repeat split. Qed.

(** ** C5 *)

(** No code run by the callers or by the two [launchSocket] goroutines
    writes to the log file: they only queue entries. *)
Lemma logEnqueue_file (sid : Z) (msg : string) (a a' : connectionAPNS) :
  logEnqueue sid msg a = Done a' → fileLog a' = fileLog a.
Proof.
  intros H. apply logEnqueue_done, sameButLog_fields in H. tauto.
Qed.

Lemma pushOne_file (p : Payload) (a a' : connectionAPNS) :
  pushOne p a = Done a' → fileLog a' = fileLog a.
Proof.
  unfold pushOne. destruct (decide _); [|by intros [= <-]].
  intros H. split_done H. by injection H as <-.
Qed.

Lemma close_file (a a' : connectionAPNS) :
  close a = Done a' → fileLog a' = fileLog a.
Proof.
  unfold close. destruct (decide _); [|by intros [= <-]].
  intros H. split_done H. by injection H as <-.
Qed.

Lemma replayLoop_S (cache : list Payload) (cur size : Z) (i : nat) (a : connectionAPNS) :
  replayLoop cache cur size (S i) a
  = (payload ← go_index cache
       (int_rem (int_add (int_sub (int_add cur size) (Z.of_nat (S i))) 1) size);
     a ← pushOne payload a;
     replayLoop cache cur size i a).
Proof. reflexivity. Qed.

Lemma replayLoop_file (cache : list Payload) (cur size : Z) (n : nat)
    (a a' : connectionAPNS) :
  replayLoop cache cur size n a = Done a' → fileLog a' = fileLog a.
Proof.
  revert a. induction n as [|n IH]; intros a H.
  - by injection H as <-.
  - rewrite replayLoop_S in H. split_done H. split_done H.
    apply IH in H. apply pushOne_file in E0. congruence.
Qed.

Lemma handleCloseError_file (ce : ConnectionClose) (sid : Z) (cache : list Payload)
    (cur : Z) (a a' : connectionAPNS) :
  handleCloseError ce sid cache cur a = Done a' → fileLog a' = fileLog a.
Proof.
  unfold handleCloseError, logPrintln, logPrintf. intros H.
  split_done H. apply logEnqueue_file in E.
  split_done H.
  assert (fileLog a1 = fileLog a0) as E1.
  { destruct (decide _); [by apply logEnqueue_file in E0|by injection E0 as <-]. }
  split_done H.
  assert (fileLog a2 = fileLog a1) as E3.
  { destruct (ErrorPayload ce); [by apply logEnqueue_file in E2|by injection E2 as <-]. }
  destruct (decide _).
  - apply replayLoop_file in H. congruence.
  - injection H as <-. congruence.
Qed.

Lemma connectStep_file (sid : Z) (r : connectResult) (a a' : connectionAPNS)
    (w w' : socketState) :
  connectStep sid r a w = Done (a', w') → fileLog a' = fileLog a.
Proof.
  unfold connectStep, logPrint, logPrintln, logPrintf. intros H.
  split_done H. apply logEnqueue_file in E.
  destruct r; split_done H; apply logEnqueue_file in E0.
  - injection H as <- <-. congruence.
  - injection H as <- <-. congruence.
  - destruct (sig_ready _); [|discriminate H].
    split_done H. apply logEnqueue_file in E1.
    injection H as <- <-. congruence.
Qed.

Lemma innerSelect_file (sid : Z) (c : selectCase) (a a' : connectionAPNS)
    (w w' : socketState) :
  innerSelect sid c a w = Done (a', w') → fileLog a' = fileLog a.
Proof.
  unfold innerSelect, logPrintln, logPrintf. intros H. destruct c as [h|ce|].
  - unfold chan_recv in H. destruct (buf (chanSend a)); [discriminate H|].
    cbn [mbind outcome_bind mret outcome_ret] in H.
    split_done H. apply logEnqueue_file in E.
    destruct h.
    + split_done H. by injection H as <- <-.
    + by injection H as <- <-.
  - split_done H. apply logEnqueue_file in E.
    split_done H. apply handleCloseError_file in E0.
    injection H as <- <-. congruence.
  - destruct (sig_ready _); [|discriminate H].
    split_done H. apply logEnqueue_file in E. by injection H as <- <-.
Qed.

Lemma launchSocket_exit_file (sid : Z) (c : exitCase) (a a' : connectionAPNS)
    (w : socketState) :
  launchSocket_exit sid c a w = Done a' → fileLog a' = fileLog a.
Proof.
  unfold launchSocket_exit, logPrint, logPrintln. intros H.
  split_done H. apply logEnqueue_file in E.
  split_done H.
  assert (fileLog a1 = fileLog a0) as E1.
  { destruct (connLast w); [|by injection E0 as <-].
    destruct c.
    - by apply logEnqueue_file in E0.
    - split_done E0. apply logEnqueue_file in E1.
      apply handleCloseError_file in E0. congruence. }
  split_done H. apply logEnqueue_file in E2.
  destruct (bShutdown w).
  - split_done H. injection H as <-. simpl. congruence.
  - injection H as <-. congruence.
Qed.

Lemma pairRun_file (evs : list pairEvent) (s s' : pairState) :
  pairRun evs s = Done s' → fileLog (manager s') = fileLog (manager s).
Proof.
  revert s. induction evs as [|ev evs IH]; intros s H.
  - by injection H as <-.
  - cbn [pairRun] in H. split_done H. apply IH in H. rewrite H. clear H IH.
    destruct ev; cbn [pairStep] in E; split_done E.
    + apply pushOne_file in E0. by injection E as <-.
    + apply close_file in E0. by injection E as <-.
    + destruct a0 as [a2 w2]. apply connectStep_file in E0.
      injection E as <-. unfold withSocket. by destruct (decide _).
    + destruct a0 as [a2 w2]. apply innerSelect_file in E0.
      injection E as <-. unfold withSocket. by destruct (decide _).
    + apply launchSocket_exit_file in E0. by injection E as <-.
Qed.

(** [launch] starts nothing, or the two [launchSocket] goroutines. *)
Lemma launch_goroutines (env : world) (b : bool) (a a' : connectionAPNS)
    (err : option string) (gos : list goroutine) :
  launch env b a = Done (err, a', gos) →
  gos = [] ∨ (gos = [GoLaunchSocket 1; GoLaunchSocket 2] ∧ err = None ∧
              status a' = ApnsActive ∧ chanDone a' = SigOpen ∧ cert a' = cert a).
Proof.
  unfold launch. intros H.
  destruct (status (set_isLogging b a)) eqn:Es;
    try (injection H as <- <- <-; by left);
    (destruct (cert (set_isLogging b a)) eqn:Ec; [|discriminate H];
     destruct (openFile env _); [injection H as <- <- <-; by left|];
     destruct (getBadTokens env _ _) as [lines [e|]];
     [injection H as <- <- <-; by left|];
     injection H as <- <- <-; right; repeat split; by destruct a).
Qed.

(** C5 fails on the code: [launch] starts the two [launchSocket] goroutines
    and no [logListener].  With logging on, the entries of the two
    goroutines pile up on the log channel and none is written to the file;
    once the channel holds 100 entries the next log call blocks. *)
Theorem log_listener_not_started :
  ∃ a' s,
    launch quietWorld true (newConnection 7 "app" (Some (mkAppCert 7 1 [] [])))
    = Done (None, a', [GoLaunchSocket 1; GoLaunchSocket 2]) ∧
    bool_decide (GoLogListener ∈ [GoLaunchSocket 1; GoLaunchSocket 2]) = false ∧
    pairRun [EvConnect 1 ConnOk; EvConnect 2 ConnOk;
             EvSubmit (payloadOf "A"); EvSelect 1 (CaseSend true)]
      (mkPair a' launchSocket_init launchSocket_init) = Done s ∧
    socketID <$> buf (chanLog (manager s)) = [1; 1; 2; 2; 1] ∧
    fileLog (manager s) = fileLog a' ∧
    logPrintln 1 ["Shutting down apns service"]
      (set_chanLog (Chan (replicate 100 (mkEntry 1 "")) 100) (manager s)) = Blocked.
Proof.
  eexists _, _. split; [vm_compute; reflexivity|].
  split; [reflexivity|].
  split; [vm_compute; reflexivity|].
  repeat split.
Qed.

(** ** C6 *)

Lemma backoff_double (j b : Z) :
  0 <= j → b = Z.min (2 ^ j) backoffLimit →
  (if decide (b < backoffLimit) then int_mul b 2 else b)
  = Z.min (2 ^ (j + 1)) backoffLimit.
Proof.
  unfold backoffLimit. intros Hj ->.
  rewrite Z.pow_add_r, Z.pow_1_r by lia.
  assert (Hpos : 0 < 2 ^ j) by (apply Z.pow_pos_nonneg; lia).
  destruct (decide (j <= 6)) as [Hle|Hgt].
  - assert (2 ^ j <= 2 ^ 6) by (apply Z.pow_le_mono_r; lia).
    change (2 ^ 6) with 64 in *.
    destruct (decide _); [|lia].
    unfold int_mul. rewrite wrap64_small by lia. lia.
  - assert (2 ^ 7 <= 2 ^ j) by (apply Z.pow_le_mono_r; lia).
    change (2 ^ 7) with 128 in *.
    destruct (decide _); lia.
Qed.

Lemma closuresOnly_backoff (K : nat) (w w' : socketState) :
  closuresOnly K w w' →
  ∀ j, 0 <= j → exponentialBackoff w = Z.min (2 ^ j) backoffLimit →
  exponentialBackoff w' = Z.min (2 ^ (j + Z.of_nat K)) backoffLimit.
Proof.
  induction 1 as [w|K sid r a a' w w1 w2 Hstep _ IH
                  |K sid a a' w w1 w2 Hstep _ IH
                  |K sid ce a a' w w1 w2 Hstep _ IH]; intros j Hj Hb.
  - by rewrite Z.add_0_r.
  - apply connectStep_locals in Hstep as (_ & _ & _ & _ & Hsame).
    apply IH; [done|congruence].
  - apply innerSelect_locals in Hstep. subst w1. by apply IH.
  - apply innerSelect_locals in Hstep. subst w1.
    replace (j + Z.of_nat (S K)) with ((j + 1) + Z.of_nat K) by lia.
    apply IH; [lia|]. simpl. by apply backoff_double.
Qed.

(** A closure that reports nothing unsent, on a manager that does not log,
    always completes. *)
Lemma innerSelect_close_quiet (sid : Z) (w : socketState) :
  innerSelect sid (CaseClose (closureOf 0)) (scenarioConn []) w
  = Done (scenarioConn [],
          mkSocket (bShutdown w) false (connLast w) (intCacheSize w)
            (intPayloadIdx w) (payloadCache w)
            (if decide (exponentialBackoff w < backoffLimit)
             then int_mul (exponentialBackoff w) 2 else exponentialBackoff w)
            (wire w)).
Proof. reflexivity. Qed.

Lemma closuresOnly_exists (K : nat) (w : socketState) : ∃ w', closuresOnly K w w'.
Proof.
  revert w. induction K as [|K IH]; intros w.
  - exists w. constructor.
  - destruct (IH (mkSocket (bShutdown w) false (connLast w) (intCacheSize w)
                    (intPayloadIdx w) (payloadCache w)
                    (if decide (exponentialBackoff w < backoffLimit)
                     then int_mul (exponentialBackoff w) 2 else exponentialBackoff w)
                    (wire w))) as [w' Hw'].
    exists w'. exact (co_close K 1 _ _ _ w _ w' (innerSelect_close_quiet 1 w) Hw').
Qed.

(** C6: the backoff of a goroutine starts at 1; after K closures with no
    hand-over in between, counted from a backoff of 1, it is 1 * 2^K capped
    at 128, and such runs exist for every K; a hand-over to the transport
    sets it to 1 whatever it was. *)
Theorem backoff_schedule :
  (∀ size, exponentialBackoff (launchSocket_locals size) = 1) ∧
  (∀ (K : nat) w w',
     exponentialBackoff w = 1 → closuresOnly K w w' →
     exponentialBackoff w' = Z.min (1 * 2 ^ Z.of_nat K) backoffLimit) ∧
  (∀ (K : nat) w, ∃ w', closuresOnly K w w') ∧
  (∀ sid a w a' w',
     innerSelect sid (CaseSend true) a w = Done (a', w') →
     exponentialBackoff w' = 1).
Proof.
  split; [done|]. split; [|split].
  - intros K w w' Hb Hrun. rewrite Z.mul_1_l.
    apply (closuresOnly_backoff K w w' Hrun 0); [lia|].
    rewrite Hb. reflexivity.
  - apply closuresOnly_exists.
  - intros sid a w a' w' H. apply innerSelect_locals in H.
    destruct H as (p & rest & cache & _ & _ & ->). done.
Qed.

(** Three closures in a row from the start: the backoff goes 1, 2, 4, 8;
    ten in a row end at the limit; the next hand-over is back at 1. *)
Lemma backoff_schedule_witness :
  ∃ w3 w10 a' w',
    closuresOnly 3 launchSocket_init w3 ∧ exponentialBackoff w3 = 8 ∧
    closuresOnly 10 launchSocket_init w10 ∧ exponentialBackoff w10 = 128 ∧
    innerSelect 1 (CaseSend true) (scenarioConn [payloadOf "A"])
      (mkSocket false true true 32 31 (replicate 32 zeroPayload) 128 [])
    = Done (a', w') ∧ exponentialBackoff w' = 1.
Proof.
  destruct backoff_schedule as (_ & Hk & Hex & Hreset).
  destruct (Hex 3%nat launchSocket_init) as [w3 H3].
  destruct (Hex 10%nat launchSocket_init) as [w10 H10].
  destruct (innerSelect 1 (CaseSend true) (scenarioConn [payloadOf "A"])
              (mkSocket false true true 32 31 (replicate 32 zeroPayload) 128 []))
    as [[a' w']| |] eqn:E; [|vm_compute in E; discriminate E..].
  exists w3, w10, a', w'.
  split; [exact H3|]. split; [exact (Hk 3%nat launchSocket_init w3 eq_refl H3)|].
  split; [exact H10|]. split; [exact (Hk 10%nat launchSocket_init w10 eq_refl H10)|].
  split; [reflexivity|].
  exact (Hreset _ _ _ _ _ E).
Defined.

(** ** C7 *)

(** C7, as stated, fails: [launch] assigns [a.isLogging] before it looks at
    the status, so a call on an Active manager with another logging flag
    returns nil, starts nothing, and leaves a different manager. *)
Lemma launch_active_sets_logging :
  status (scenarioConn []) = ApnsActive ∧
  launch quietWorld true (scenarioConn [])
  = Done (None, set_isLogging true (scenarioConn []), []) ∧
  set_isLogging true (scenarioConn []) ≠ scenarioConn [].
Proof. repeat split. discriminate. Qed.

(** C7, amended: a call of [launch] on a manager whose status is Active or
    NoCerts returns nil and starts no goroutine; the manager is unchanged
    except for its logging flag, which is set to the argument.  So after a
    call of [launch] that returned nil, a second call, without a close in
    between, starts no further goroutine: the two calls together start
    nothing or one pair. *)
Theorem launch_idempotent (env : world) (b : bool) (a : connectionAPNS) :
  (status a = ApnsActive ∨ status a = ApnsNoCerts →
   launch env b a = Done (None, set_isLogging b a, [])) ∧
  (∀ a1 gos env' b',
     launch env b a = Done (None, a1, gos) →
     (gos = [] ∨ gos = [GoLaunchSocket 1; GoLaunchSocket 2]) ∧
     launch env' b' a1 = Done (None, set_isLogging b' a1, [])).
Proof.
  assert (Hnoop : ∀ env0 b0 a0, status a0 = ApnsActive ∨ status a0 = ApnsNoCerts →
                    launch env0 b0 a0 = Done (None, set_isLogging b0 a0, [])).
  { intros env0 b0 a0 Hst. unfold launch.
    replace (status (set_isLogging b0 a0)) with (status a0) by done.
    by destruct Hst as [-> | ->]. }
  split; [apply Hnoop|].
  intros a1 gos env' b' H.
  assert (Hst : status a1 = ApnsActive ∨ status a1 = ApnsNoCerts).
  { destruct (launch_goroutines _ _ _ _ _ _ H) as [->|(_ & _ & Hact & _)];
      [|by left].
    unfold launch in H.
    destruct (status (set_isLogging b a)) eqn:Es.
    - destruct (cert (set_isLogging b a)); [|discriminate H].
      destruct (openFile env _); [discriminate H|].
      destruct (getBadTokens env _ _) as [lines [e|]]; discriminate H.
    - injection H as <-. by right.
    - destruct (cert (set_isLogging b a)); [|discriminate H].
      destruct (openFile env _); [discriminate H|].
      destruct (getBadTokens env _ _) as [lines [e|]]; discriminate H.
    - injection H as <-. by left. }
  split; [|by apply Hnoop].
  destruct (launch_goroutines _ _ _ _ _ _ H) as [->|(-> & _)]; [by left|by right].
Qed.

(** A manager as [LaunchConnection] creates it is launched twice: the first
    call starts the pair, the second nothing. *)
Lemma launch_idempotent_witness :
  ∃ a1,
    launch quietWorld true (newConnection 7 "app" (Some (mkAppCert 7 1 [] [])))
    = Done (None, a1, [GoLaunchSocket 1; GoLaunchSocket 2]) ∧
    launch quietWorld false a1 = Done (None, set_isLogging false a1, []).
Proof.
  destruct (launch quietWorld true (newConnection 7 "app" (Some (mkAppCert 7 1 [] []))))
    as [[[err a1] gos]| |] eqn:E; [|vm_compute in E; discriminate E..].
  assert (Herr : err = None) by (vm_compute in E; congruence).
  assert (Hgos : gos = [GoLaunchSocket 1; GoLaunchSocket 2])
    by (vm_compute in E; congruence).
  subst err gos. exists a1. split; [reflexivity|].
  destruct (launch_idempotent quietWorld true
              (newConnection 7 "app" (Some (mkAppCert 7 1 [] [])))) as [_ H2].
  exact (proj2 (H2 a1 _ quietWorld false E)).
Defined.

(** The exposed [LaunchConnection] is another matter: it makes a new
    manager at every call, so two calls for one application start two pairs
    of goroutines, and the map keeps only the second manager. *)
Lemma LaunchConnection_twice :
  ∃ m1 m2,
    LaunchConnection quietWorld 7 "app" 1 (mkAppCert 7 1 [] []) true ∅
    = Done (None, m1, [GoLaunchSocket 1; GoLaunchSocket 2]) ∧
    LaunchConnection quietWorld 7 "app" 1 (mkAppCert 7 1 [] []) true m1
    = Done (None, m2, [GoLaunchSocket 1; GoLaunchSocket 2]).
Proof.
  eexists _, _. split; vm_compute; reflexivity.
Qed.

(** ** C8 *)

(** C8: after [close], on a manager that, if Active, has its done channel
    open (as [launch] leaves it), the status is not Active, so every
    [pushOne] that follows returns without touching the manager: nothing is
    put on the send queue, from which alone the goroutines take what they
    hand to the transport. *)
Theorem submit_after_close_dropped (a : connectionAPNS) (ps : list Payload) :
  (status a = ApnsActive → chanDone a = SigOpen) →
  ∃ a',
    close a = Done a' ∧
    status a' ≠ ApnsActive ∧
    chanSend a' = chanSend a ∧
    pushMany ps a' = Done a'.
Proof.
  intros Hwf.
  assert (∃ a', close a = Done a' ∧ status a' ≠ ApnsActive ∧ chanSend a' = chanSend a)
    as (a' & Hc & Hst & Hq).
  { unfold close. destruct (decide (status a = ApnsActive)) as [Hact|Hno].
    - rewrite (Hwf Hact). eexists. split; [reflexivity|]. split; [|done].
      simpl. discriminate.
    - by exists a. }
  exists a'. repeat split; try done.
  induction ps as [|p ps IH]; [done|].
  cbn [pushMany]. by rewrite pushOne_inactive.
Qed.

(** A launched manager is closed, then A and B are pushed: the queue stays
    empty. *)
Lemma submit_after_close_dropped_witness :
  ∃ a',
    close (scenarioConn []) = Done a' ∧
    pushMany [payloadOf "A"; payloadOf "B"] a' = Done a' ∧
    buf (chanSend a') = [].
Proof.
  destruct (submit_after_close_dropped (scenarioConn [])
              [payloadOf "A"; payloadOf "B"]) as (a' & Hc & _ & Hq & Hp).
  - reflexivity.
  - exists a'. split; [exact Hc|]. split; [exact Hp|]. rewrite Hq. reflexivity.
Defined.

(** ** C9 *)

(** C9 fails on the code: each of the two [launchSocket] goroutines closes
    [chanDoneLog] itself when it returns.  After [close], the goroutine that
    returns first closes it while the other is still running, and the other
    then closes a closed channel, which panics, in either order.  And
    [logListener], were it running, returns on the stop signal without
    reading what is still queued. *)
Theorem log_stop_closed_by_each_goroutine :
  ∃ s s1,
    (s0 ← launched false;
     pairRun [EvConnect 1 ConnOk; EvConnect 2 ConnOk; EvClose;
              EvSelect 1 CaseDone; EvSelect 2 CaseDone] s0) = Done s ∧
    chanDoneLog (manager s) = SigOpen ∧
    pairRun [EvExit 1 ExitTimer] s = Done s1 ∧
    chanDoneLog (manager s1) = SigClosed ∧
    pairRun [EvExit 2 ExitTimer] s1 = Panicked ∧
    pairRun [EvExit 2 ExitTimer; EvExit 1 ExitTimer] s = Panicked ∧
    (let a := set_chanDoneLog SigClosed
                (set_chanLog (Chan [mkEntry 2 "Shutting down apns service"] 100)
                   (manager s)) in
     logListener [LogDone] a = Done a ∧
     length (buf (chanLog a)) = 1%nat ∧
     fileLog a = fileLog (manager s)).
Proof.
  eexists _, _. split; [vm_compute; reflexivity|].
  split; [reflexivity|].
  split; [vm_compute; reflexivity|].
  repeat split.
Qed.

(** ** C10 *)

(** C10: [LaunchConnection] hands [newConnection] the address of its own
    parameter, so the manager it creates has status CertsFound, whatever
    the certificate bytes are; when the call, with push enabled, returns nil,
    [launch] has taken the launching branch: the two goroutines were started
    and the manager stored under the application id is Active and holds that
    certificate.  The branch of [launch] for NoCerts is never taken. *)
Theorem launch_connection_has_cert (env : world) (appID' : Z) (appString : string)
    (appCert : AppCert) (isLogging' : bool) (mapAPNS : gmap Z connectionAPNS) :
  status (newConnection appID' appString (Some appCert)) = ApnsCertsFound ∧
  cert (newConnection appID' appString (Some appCert)) = Some appCert ∧
  (∀ mapAPNS' gos,
     LaunchConnection env appID' appString 1 appCert isLogging' mapAPNS
     = Done (None, mapAPNS', gos) →
     gos = [GoLaunchSocket 1; GoLaunchSocket 2] ∧
     ∃ connection,
       mapAPNS' = <[appID' := connection]> mapAPNS ∧
       status connection = ApnsActive ∧
       cert connection = Some appCert) ∧
  (∀ err mapAPNS' gos,
     LaunchConnection env appID' appString 1 appCert isLogging' mapAPNS
     = Done (err, mapAPNS', gos) →
     ∀ k connection, mapAPNS' !! k = Some connection →
       mapAPNS !! k = Some connection ∨ status connection ≠ ApnsNoCerts).
Proof.
  split; [done|]. split; [done|].
  assert (Hlaunch : ∀ err a' gos,
            launch env isLogging' (newConnection appID' appString (Some appCert))
            = Done (err, a', gos) →
            err = None →
            gos = [GoLaunchSocket 1; GoLaunchSocket 2] ∧ status a' = ApnsActive ∧
            cert a' = Some appCert).
  { intros err a' gos H ->. unfold launch in H. simpl in H.
    destruct (openFile env _); [discriminate H|].
    destruct (getBadTokens env _ _) as [lines [e|]]; [discriminate H|].
    by injection H as <- <-. }
  split.
  - intros mapAPNS' gos H. unfold LaunchConnection in H.
    destruct (decide (1 = 1)); [|done].
    split_done H. destruct a as [[err a'] gos'].
    destruct err as [msg|]; [discriminate H|].
    injection H as <- <-.
    destruct (Hlaunch _ _ _ eq_refl eq_refl) as (-> & Hst & Hc).
    split; [done|]. by exists a'.
  - intros err mapAPNS' gos H k connection Hk. unfold LaunchConnection in H.
    destruct (decide (1 = 1)); [|done].
    split_done H. destruct a as [[err' a'] gos'].
    destruct err' as [msg|].
    + injection H as <- <- <-. by left.
    + injection H as <- <- <-.
      destruct (Hlaunch _ _ _ eq_refl eq_refl) as (_ & Hst & _).
      destruct (decide (k = appID')) as [->|Hne].
      * rewrite lookup_insert_eq in Hk. injection Hk as <-.
        right. rewrite Hst. discriminate.
      * rewrite lookup_insert_ne in Hk by done. by left.
Qed.

(** With empty certificate and key bytes, in [quietWorld]: the call returns
    nil and the manager stored for application 7 is Active. *)
Lemma launch_connection_has_cert_witness :
  ∃ mapAPNS' connection,
    LaunchConnection quietWorld 7 "app" 1 (mkAppCert 7 1 [] []) true ∅
    = Done (None, mapAPNS', [GoLaunchSocket 1; GoLaunchSocket 2]) ∧
    mapAPNS' !! 7 = Some connection ∧
    status connection = ApnsActive.
Proof.
  destruct (LaunchConnection quietWorld 7 "app" 1 (mkAppCert 7 1 [] []) true ∅)
    as [[[err m'] gos]| |] eqn:E; [|vm_compute in E; discriminate E..].
  assert (Herr : err = None) by (vm_compute in E; congruence).
  subst err.
  destruct (launch_connection_has_cert quietWorld 7 "app" (mkAppCert 7 1 [] [])
              true ∅) as (_ & _ & H & _).
  destruct (H m' gos E) as (-> & connection & -> & Hst & _).
  exists (<[7 := connection]> ∅), connection.
  split; [reflexivity|]. split; [apply lookup_insert_eq|exact Hst].
Defined.

(** * Further properties of the code *)

(** ** What a goroutine leaves of the manager *)

Section Frame.
Variable R : connectionAPNS → connectionAPNS → Prop.
Hypothesis R_refl : ∀ a, R a a.
Hypothesis R_trans : ∀ a b c, R a b → R b c → R a c.
Hypothesis R_log : ∀ sid msg a a', logEnqueue sid msg a = Done a' → R a a'.
Hypothesis R_push : ∀ p a a', pushOne p a = Done a' → R a a'.
Hypothesis R_recv : ∀ a q, R a (set_chanSend q a).
Hypothesis R_stop : ∀ a c, R a (set_chanDoneLog c a).

Lemma replayLoop_frame (cache : list Payload) (cur size : Z) (n : nat)
    (a a' : connectionAPNS) :
  replayLoop cache cur size n a = Done a' → R a a'.
Proof.
  revert a. induction n as [|n IH]; intros a H.
  - injection H as <-. apply R_refl.
  - rewrite replayLoop_S in H. split_done H. split_done H.
    eapply R_trans; [eapply R_push; exact E0|by apply IH].
Qed.

Lemma handleCloseError_frame (ce : ConnectionClose) (sid : Z)
    (cache : list Payload) (cur : Z) (a a' : connectionAPNS) :
  handleCloseError ce sid cache cur a = Done a' → R a a'.
Proof.
  unfold handleCloseError, logPrintln, logPrintf. intros H.
  split_done H. apply R_log in E.
  split_done H.
  assert (R a0 a1) as E1.
  { destruct (decide _); [by apply R_log in E0|injection E0 as <-; apply R_refl]. }
  split_done H.
  assert (R a1 a2) as E3.
  { destruct (ErrorPayload ce); [by apply R_log in E2|injection E2 as <-; apply R_refl]. }
  assert (R a2 a') as E4.
  { destruct (decide _); [by apply replayLoop_frame in H|injection H as <-; apply R_refl]. }
  eauto.
Qed.

Lemma connectStep_frame (sid : Z) (r : connectResult) (a a' : connectionAPNS)
    (w w' : socketState) :
  connectStep sid r a w = Done (a', w') → R a a'.
Proof.
  unfold connectStep, logPrint, logPrintln, logPrintf. intros H.
  split_done H. apply R_log in E.
  destruct r; split_done H; apply R_log in E0.
  - injection H as <- <-. eauto.
  - injection H as <- <-. eauto.
  - destruct (sig_ready _); [|discriminate H].
    split_done H. apply R_log in E1.
    injection H as <- <-. eauto.
Qed.

Lemma innerSelect_frame (sid : Z) (c : selectCase) (a a' : connectionAPNS)
    (w w' : socketState) :
  innerSelect sid c a w = Done (a', w') → R a a'.
Proof.
  unfold innerSelect, logPrintln, logPrintf. intros H. destruct c as [h|ce|].
  - unfold chan_recv in H. destruct (buf (chanSend a)); [discriminate H|].
    cbn [mbind outcome_bind mret outcome_ret] in H.
    split_done H. apply R_log in E.
    assert (a' = a0) as ->.
    { destruct h; [split_done H|]; by injection H as <- <-. }
    eauto.
  - split_done H. apply R_log in E.
    split_done H. apply handleCloseError_frame in E0.
    injection H as <- <-. eauto.
  - destruct (sig_ready _); [|discriminate H].
    split_done H. apply R_log in E. by injection H as <- <-.
Qed.

Lemma launchSocket_exit_frame (sid : Z) (c : exitCase) (a a' : connectionAPNS)
    (w : socketState) :
  launchSocket_exit sid c a w = Done a' → R a a'.
Proof.
  unfold launchSocket_exit, logPrint, logPrintln. intros H.
  split_done H. apply R_log in E.
  split_done H.
  assert (R a0 a1) as E1.
  { destruct (connLast w); [|injection E0 as <-; apply R_refl].
    destruct c.
    - by apply R_log in E0.
    - split_done E0. apply R_log in E1.
      apply handleCloseError_frame in E0. eauto. }
  split_done H. apply R_log in E2.
  destruct (bShutdown w).
  - split_done H. injection H as <-. eauto.
  - injection H as <-. eauto.
Qed.
Lemma pairStep_frame (ev : pairEvent) (s s' : pairState) :
  (ev = EvClose → ∀ a a', close a = Done a' → R a a') →
  pairStep ev s = Done s' → R (manager s) (manager s').
Proof.
  intros Hclose H. destruct ev; cbn [pairStep] in H; split_done H.
  - injection H as <-. eapply R_push. exact E.
  - injection H as <-. eapply Hclose; [done|exact E].
  - destruct a as [a1 w1]. injection H as <-.
    apply connectStep_frame in E. unfold withSocket. by destruct (decide _).
  - destruct a as [a1 w1]. injection H as <-.
    apply innerSelect_frame in E. unfold withSocket. by destruct (decide _).
  - injection H as <-. by apply launchSocket_exit_frame in E.
Qed.

Lemma pairRun_frame (evs : list pairEvent) (s s' : pairState) :
  Forall (λ ev, ev = EvClose → ∀ a a', close a = Done a' → R a a') evs →
  pairRun evs s = Done s' → R (manager s) (manager s').
Proof.
  revert s. induction evs as [|ev evs IH]; intros s Hall H.
  - injection H as <-. apply R_refl.
  - apply Forall_cons in Hall as [Hev Hall].
    cbn [pairRun] in H. split_done H.
    eapply R_trans; [eapply pairStep_frame; [exact Hev|exact E]|by apply IH].
Qed.
End Frame.

(** ** The cache at every loop head *)

(** X1: at every loop head of a [launchSocket] goroutine the cache has its
    full length, the cursor is a slot of it, and the slots read in ring
    order from the one after the cursor are the window of what the goroutine
    has handed over: once as many payloads as slots were handed over, exactly
    the most recent ones, oldest first. *)
Theorem ring_holds_recent (size : Z) (w : socketState) :
  0 < size <= maxCache →
  socketReach size w →
  let k := Z.to_nat (intPayloadIdx w + 1) in
  Z.of_nat (length (payloadCache w)) = size ∧
  0 <= intPayloadIdx w < size ∧
  drop k (payloadCache w) ++ take k (payloadCache w)
  = window (Z.to_nat size) (wire w) ∧
  (size <= Z.of_nat (length (wire w)) →
   drop k (payloadCache w) ++ take k (payloadCache w)
   = drop (length (wire w) - Z.to_nat size) (wire w)).
Proof.
  intros Hs Hr k.
  destruct (socketReach_cacheInv size w Hs Hr) as [_ Hlen Hidx Hslots].
  assert (Hrot : drop k (payloadCache w) ++ take k (payloadCache w)
                 = window (Z.to_nat size) (wire w)).
  { apply list_eq. intros j.
    destruct (decide (j < Z.to_nat size)%nat) as [Hj|Hj].
    - rewrite <- Hslots by lia.
      destruct (decide (j < length (payloadCache w) - k)%nat) as [Hlo|Hhi].
      + rewrite lookup_app_l by (rewrite length_drop; lia).
        rewrite lookup_drop. f_equal.
        rewrite Z.mod_small by lia. lia.
      + rewrite lookup_app_r by (rewrite length_drop; lia).
        rewrite length_drop, lookup_take_lt by lia. f_equal.
        replace (intPayloadIdx w + 1 + Z.of_nat j)
          with ((intPayloadIdx w + 1 + Z.of_nat j - size) + 1 * size) by lia.
        rewrite Z.mod_add, Z.mod_small by lia. lia.
    - rewrite !lookup_ge_None_2; [done| |].
      + rewrite window_length. lia.
      + rewrite length_app, length_drop, length_take. lia. }
  repeat split; try done; try lia.
  intros Hge. rewrite Hrot. apply window_all. lia.
Qed.

(** Cache of 4, six sends A..F: the ring read from the slot after the cursor
    is C, D, E, F. *)
Lemma ring_holds_recent_witness :
  let w := afterSends 4 1 (payloadOf <$> ["A"; "B"; "C"; "D"; "E"; "F"]) in
  drop (Z.to_nat (intPayloadIdx w + 1)) (payloadCache w)
  ++ take (Z.to_nat (intPayloadIdx w + 1)) (payloadCache w)
  = payloadOf <$> ["C"; "D"; "E"; "F"].
Proof.
  intros w.
  destruct (ring_holds_recent 4 w) as (_ & _ & _ & H).
  - unfold maxCache. lia.
  - apply afterSends_reach. unfold maxCache. lia.
  - rewrite H; [reflexivity|]. vm_compute. discriminate.
Defined.

(** ** No step of a goroutine panics *)

Lemma bind_safe {A B : Type} (m : outcome A) (f : A → outcome B) :
  m ≠ Panicked → (∀ x, m = Done x → f x ≠ Panicked) → m ≫= f ≠ Panicked.
Proof. destruct m; simpl; eauto. Qed.

Lemma logEnqueue_safe (sid : Z) (msg : string) (a : connectionAPNS) :
  logEnqueue sid msg a ≠ Panicked.
Proof.
  unfold logEnqueue, chan_send. destruct (isLogging a); [|done].
  by destruct (decide _).
Qed.

Lemma pushOne_safe (p : Payload) (a : connectionAPNS) : pushOne p a ≠ Panicked.
Proof.
  unfold pushOne, chan_send. destruct (decide _); [|done].
  by destruct (decide _).
Qed.

Lemma replayLoop_safe (cache : list Payload) (cur size : Z) (n : nat)
    (a : connectionAPNS) :
  0 < size <= maxCache → Z.of_nat (length cache) = size → 0 <= cur < size →
  Z.of_nat n <= size →
  replayLoop cache cur size n a ≠ Panicked.
Proof.
  intros Hs Hlen Hcur. revert a. induction n as [|n IH]; intros a Hn; [done|].
  rewrite replayLoop_S, replay_index by lia.
  assert (Hb : 0 <= (cur + size - Z.of_nat (S n) + 1) `mod` size < size)
    by (apply Z.mod_pos_bound; lia).
  unfold go_index. destruct (decide _) as [_|Hbad]; [|lia].
  destruct (lookup_lt_is_Some_2 cache
              (Z.to_nat ((cur + size - Z.of_nat (S n) + 1) `mod` size)))
    as [p ->]; [lia|].
  cbn [mbind outcome_bind].
  apply bind_safe; [apply pushOne_safe|]. intros a1 _. apply IH. lia.
Qed.

Lemma handleCloseError_safe (ce : ConnectionClose) (sid : Z) (cache : list Payload)
    (cur size : Z) (a : connectionAPNS) :
  0 < size <= maxCache → Z.of_nat (length cache) = size → 0 <= cur < size →
  handleCloseError ce sid cache cur a ≠ Panicked.
Proof.
  intros Hs Hlen Hcur. unfold handleCloseError, logPrintln, logPrintf.
  apply bind_safe; [apply logEnqueue_safe|]. intros a1 _.
  apply bind_safe.
  { destruct (decide _); [apply logEnqueue_safe|done]. }
  intros a2 _. apply bind_safe.
  { destruct (ErrorPayload ce); [apply logEnqueue_safe|done]. }
  intros a3 _. destruct (decide _); [|done].
  rewrite Hlen. apply replayLoop_safe; try done.
  destruct (decide _); lia.
Qed.

(** X2: at every loop head of a [launchSocket] goroutine, whatever state the
    manager is in and whichever case fires, neither the connection attempt
    nor the turn of the inner loop panics: the cache is never indexed out of
    range, by the hand-over or by the replay. *)
Theorem steps_never_panic (size sid : Z) (r : connectResult) (c : selectCase)
    (a : connectionAPNS) (w : socketState) :
  0 < size <= maxCache →
  socketReach size w →
  connectStep sid r a w ≠ Panicked ∧ innerSelect sid c a w ≠ Panicked.
Proof.
  intros Hs Hr.
  destruct (socketReach_cacheInv size w Hs Hr) as [Hsz Hlen Hidx _].
  split.
  - unfold connectStep, logPrint, logPrintln, logPrintf.
    apply bind_safe; [apply logEnqueue_safe|]. intros a1 _.
    destruct r.
    + apply bind_safe; [apply logEnqueue_safe|done].
    + apply bind_safe; [apply logEnqueue_safe|done].
    + apply bind_safe; [apply logEnqueue_safe|]. intros a2 _.
      destruct (sig_ready _); [|done].
      apply bind_safe; [apply logEnqueue_safe|done].
  - unfold innerSelect, logPrintln, logPrintf. destruct c as [h|ce|].
    + unfold chan_recv. destruct (buf (chanSend a)); [done|].
      cbn [mbind outcome_bind].
      apply bind_safe; [apply logEnqueue_safe|]. intros a1 _.
      destruct h; [|done].
      rewrite Hsz, send_index by done.
      assert (0 <= (intPayloadIdx w + 1) `mod` size < size)
        by (apply Z.mod_pos_bound; lia).
      unfold go_store. destruct (decide _); [done|lia].
    + apply bind_safe; [apply logEnqueue_safe|]. intros a1 _.
      apply bind_safe; [|done].
      by apply (handleCloseError_safe _ _ _ _ size).
    + destruct (sig_ready _); [|done].
      apply bind_safe; [apply logEnqueue_safe|done].
Qed.

(** After 40 sends into the cache of 32 slots, a closure reporting 50 unsent
    payloads does not panic. *)
Lemma steps_never_panic_witness :
  innerSelect 1 (CaseClose (closureOf 50)) (scenarioConn [])
    (afterSends 32 1 (replicate 40 (payloadOf "A"))) ≠ Panicked.
Proof.
  apply (steps_never_panic 32 1 ConnOk).
  - unfold maxCache. lia.
  - apply afterSends_reach. unfold maxCache. lia.
Defined.

(** ** The backoff stays a power of two up to the limit *)

(** X3: at every loop head of a [launchSocket] goroutine the backoff is one
    of 1, 2, 4, ..., 128. *)
Theorem backoff_in_range (size : Z) (w : socketState) :
  socketReach size w →
  ∃ k, 0 <= k <= 7 ∧ exponentialBackoff w = 2 ^ k.
Proof.
  induction 1 as [|sid r a w a' w' _ IH _ Hstep
                  |sid c a w a' w' _ IH _ _ Hstep].
  - exists 0. split; [lia|done].
  - apply connectStep_locals in Hstep as (_ & _ & _ & _ & ->). exact IH.
  - apply innerSelect_locals in Hstep. destruct IH as (k & Hk & Hb).
    destruct c as [[]|ce|].
    + destruct Hstep as (p & rest & cache & _ & _ & ->).
      exists 0. split; [lia|done].
    + subst. by exists k.
    + subst. simpl. unfold backoffLimit.
      destruct (decide (k <= 6)) as [Hle|Hgt].
      * assert (2 ^ k <= 2 ^ 6) by (apply Z.pow_le_mono_r; lia).
        assert (0 < 2 ^ k) by (apply Z.pow_pos_nonneg; lia).
        change (2 ^ 6) with 64 in *.
        exists (k + 1). split; [lia|].
        destruct (decide _); [|lia].
        unfold int_mul. rewrite wrap64_small by lia.
        rewrite Z.pow_add_r, Z.pow_1_r by lia. lia.
      * assert (k = 7) as -> by lia. exists 7. split; [lia|].
        rewrite Hb. by destruct (decide _).
    + subst. by exists k.
Qed.

(** The goroutine of the scenario after two hand-overs. *)
Lemma backoff_in_range_witness :
  ∃ k, 0 <= k <= 7 ∧
       exponentialBackoff (afterSends 32 1 [payloadOf "A"; payloadOf "B"]) = 2 ^ k.
Proof.
  apply (backoff_in_range 32). apply afterSends_reach. unfold maxCache. lia.
Defined.

(** ** Closures that put nothing back *)

Lemma replayLoop_inactive (cache : list Payload) (cur size : Z) (n : nat)
    (a : connectionAPNS) :
  0 < size <= maxCache → Z.of_nat (length cache) = size → 0 <= cur < size →
  Z.of_nat n <= size →
  status a ≠ ApnsActive →
  replayLoop cache cur size n a = Done a.
Proof.
  intros Hs Hlen Hcur Hn Hst. induction n as [|n IH]; [done|].
  rewrite replayLoop_S, replay_index by lia.
  assert (Hb : 0 <= (cur + size - Z.of_nat (S n) + 1) `mod` size < size)
    by (apply Z.mod_pos_bound; lia).
  unfold go_index. destruct (decide _) as [_|Hbad]; [|lia].
  destruct (lookup_lt_is_Some_2 cache
              (Z.to_nat ((cur + size - Z.of_nat (S n) + 1) `mod` size)))
    as [p ->]; [lia|].
  cbn [mbind outcome_bind]. rewrite pushOne_inactive by done.
  cbn [mbind outcome_bind]. apply IH. lia.
Qed.

(** [handleCloseError] up to its replay loop, with room for its log entries. *)
Lemma handleCloseError_logs (ce : ConnectionClose) (sid : Z)
    (cache : list Payload) (cur : Z) (a : connectionAPNS) :
  logRoom 3 a →
  ∃ a3, sameButLog a a3 ∧ (∀ k, logRoom (3 + k) a → logRoom k a3) ∧
    handleCloseError ce sid cache cur a
    = (let n := Z.of_nat (length (UnsentPayloads ce)) in
       let size := Z.of_nat (length cache) in
       if decide (n > 0)
       then replayLoop cache cur size
              (Z.to_nat (if decide (n > size) then size else n)) a3
       else mret a3).
Proof.
  intros Hlog.
  unfold handleCloseError, logPrintln, logPrintf.
  set (N := Z.of_nat (length (UnsentPayloads ce))).
  set (msg1 := String.concat " " _ +:+ nl).
  set (msg2 := String.concat "" [_; _; _; _; _]).
  rewrite (logEnqueue_room sid msg1 a) by (eapply logRoom_le; [|exact Hlog]; lia).
  cbn [mbind outcome_bind].
  set (a1 := logged sid msg1 a).
  assert (S1 : sameButLog a a1) by apply logged_same.
  assert (R1 : ∀ k, logRoom (3 + k) a → logRoom (2 + k) a1)
    by (intros k H; by apply (logged_room (2 + k))).
  assert (∃ a2, (if decide (N > 0) then logEnqueue sid msg2 a1 else mret a1) = Done a2 ∧
                sameButLog a a2 ∧ (∀ k, logRoom (3 + k) a → logRoom (1 + k) a2))
    as (a2 & -> & S2 & R2).
  { destruct (decide _).
    - exists (logged sid msg2 a1). split; [|split].
      + apply logEnqueue_room. eapply logRoom_le; [|apply (R1 0%nat Hlog)]. lia.
      + eapply sameButLog_trans; [exact S1|apply logged_same].
      + intros k H. apply (logged_room (1 + k)). by apply R1.
    - exists a1. split; [done|]. split; [done|].
      intros k H. eapply logRoom_le; [|apply (R1 k H)]. lia. }
  cbn [mbind outcome_bind].
  assert (∃ a3, match ErrorPayload ce with
                | Some payload =>
                    logEnqueue sid
                      (String.concat ""
                         ["Payload "; ExtraData payload; " "; Category payload; " ";
                          AlertText payload; nl; Token payload; nl]) a2
                | None => mret a2
                end = Done a3 ∧
                sameButLog a a3 ∧ (∀ k, logRoom (3 + k) a → logRoom k a3))
    as (a3 & -> & S3 & R3).
  { destruct (ErrorPayload ce) as [payload|].
    - eexists. split; [|split].
      + apply logEnqueue_room. eapply logRoom_le; [|apply (R2 0%nat Hlog)]. lia.
      + eapply sameButLog_trans; [exact S2|apply logged_same].
      + intros k H. apply (logged_room k). by apply (R2 k).
    - exists a2. split; [done|]. split; [done|].
      intros k H. eapply logRoom_le; [|apply (R2 k H)]. lia. }
  cbn [mbind outcome_bind].
  by exists a3.
Qed.

Lemma handleCloseError_inactive (ce : ConnectionClose) (sid : Z)
    (cache : list Payload) (cur size : Z) (a : connectionAPNS) :
  0 < size <= maxCache → Z.of_nat (length cache) = size → 0 <= cur < size →
  status a ≠ ApnsActive →
  logRoom 3 a →
  ∃ a', handleCloseError ce sid cache cur a = Done a' ∧ sameButLog a a' ∧
        (∀ k, logRoom (3 + k) a → logRoom k a').
Proof.
  intros Hs Hlen Hcur Hst Hlog.
  destruct (handleCloseError_logs ce sid cache cur a Hlog) as (a3 & S3 & R3 & ->).
  exists a3. split; [|done]. cbv zeta.
  destruct (decide _); [|done].
  rewrite Hlen. apply replayLoop_inactive; try done.
  - destruct (decide _); lia.
  - apply sameButLog_fields in S3 as (-> & _). done.
Qed.

(** X4: when a goroutine leaves [launchSocket] with [bShutdown] set and sees
    a closure on its last connection on the way out, on a manager that is no
    longer Active (as after [close]), the payloads the closure reports as
    unsent are read from the cache and dropped by [pushOne]: the send
    channel is left as it was, and the stop signal of the log is closed. *)
Theorem exit_closure_replays_nothing (size sid : Z) (ce : ConnectionClose)
    (a : connectionAPNS) (w : socketState) :
  0 < size <= maxCache →
  socketReach size w →
  status a ≠ ApnsActive →
  bShutdown w = true →
  chanDoneLog a = SigOpen →
  logRoom 6 a →
  ∃ a',
    launchSocket_exit sid (ExitClose ce) a w = Done a' ∧
    chanSend a' = chanSend a ∧
    chanDoneLog a' = SigClosed ∧
    status a' = status a.
Proof.
  intros Hs Hr Hst Hsh Hopen Hlog.
  destruct (socketReach_cacheInv size w Hs Hr) as [_ Hlen Hidx _].
  unfold launchSocket_exit, logPrintln.
  run_log Hlog a1.
  assert (∃ a3, (if connLast w
                 then a0 ← logEnqueue sid (String.concat " " ["Closing channel"] +:+ nl) a1;
                      handleCloseError ce sid (payloadCache w) (intPayloadIdx w) a0
                 else mret a1) = Done a3 ∧ sameButLog a1 a3 ∧ logRoom 1 a3)
    as (a3 & -> & S3 & R3).
  { destruct (connLast w).
    - run_log R a2.
      destruct (handleCloseError_inactive ce sid (payloadCache w) (intPayloadIdx w)
                  size a2) as (a3 & -> & S3 & R3); try done.
      + apply sameButLog_fields in S0 as (-> & _).
        apply sameButLog_fields in S as (-> & _). done.
      + eapply logRoom_le; [|exact R0]. lia.
      + exists a3. split; [done|]. split; [by eapply sameButLog_trans|].
        apply (R3 1%nat). exact R0.
    - exists a1. split; [done|]. split; [apply sameButLog_refl|].
      eapply logRoom_le; [|exact R]. lia. }
  cbn [mbind outcome_bind].
  run_log R3 a4.
  rewrite Hsh.
  pose proof (sameButLog_trans _ _ _ S (sameButLog_trans _ _ _ S3 S0)) as Sall.
  apply sameButLog_fields in Sall as (Hs' & Hc & _ & _ & Hd & _).
  rewrite Hd, Hopen. cbn [sig_close mbind outcome_bind mret outcome_ret].
  eexists. split; [reflexivity|]. by destruct a4.
Qed.

(** A closed manager, a goroutine that handed over A and B and was told to
    shut down: the closure on the way out reports both unsent, and the queue
    stays empty. *)
Lemma exit_closure_replays_nothing_witness :
  ∃ a',
    launchSocket_exit 1 (ExitClose (closureOf 2))
      (set_status ApnsCertsFound (scenarioConn []))
      (localsAfter (afterSends 32 1 [payloadOf "A"; payloadOf "B"])
         (innerSelect 1 CaseDone (set_chanDone SigClosed (scenarioConn []))
            (afterSends 32 1 [payloadOf "A"; payloadOf "B"])))
    = Done a' ∧
    buf (chanSend a') = [].
Proof.
  destruct (exit_closure_replays_nothing 32 1 (closureOf 2)
              (set_status ApnsCertsFound (scenarioConn []))
              (localsAfter (afterSends 32 1 [payloadOf "A"; payloadOf "B"])
                 (innerSelect 1 CaseDone (set_chanDone SigClosed (scenarioConn []))
                    (afterSends 32 1 [payloadOf "A"; payloadOf "B"]))))
    as (a' & E & Hq & _).
  - unfold maxCache. lia.
  - eapply (reach_select 32 1 CaseDone (set_chanDone SigClosed (scenarioConn []))
              (afterSends 32 1 [payloadOf "A"; payloadOf "B"])).
    + apply afterSends_reach. unfold maxCache. lia.
    + reflexivity.
    + reflexivity.
    + vm_compute. reflexivity.
  - discriminate.
  - reflexivity.
  - reflexivity.
  - left. reflexivity.
  - exists a'. split; [exact E|]. rewrite Hq. reflexivity.
Defined.

(** X5: a closure that reports no unsent payload (an EOF from the gateway)
    puts nothing on the send channel, whatever the status of the manager and
    whatever the cache holds; the goroutine still marks its connection bad
    and doubles its backoff up to the limit. *)
Theorem closure_without_unsent (sid : Z) (ce : ConnectionClose)
    (a : connectionAPNS) (w : socketState) :
  UnsentPayloads ce = [] →
  logRoom 4 a →
  ∃ a' w',
    innerSelect sid (CaseClose ce) a w = Done (a', w') ∧
    chanSend a' = chanSend a ∧
    bConnectionGood w' = false ∧
    exponentialBackoff w'
    = (if decide (exponentialBackoff w < backoffLimit)
       then int_mul (exponentialBackoff w) 2 else exponentialBackoff w) ∧
    payloadCache w' = payloadCache w ∧
    intPayloadIdx w' = intPayloadIdx w.
Proof.
  intros Hnone Hlog. unfold innerSelect, logPrintln.
  run_log Hlog a1.
  destruct (handleCloseError_logs ce sid (payloadCache w) (intPayloadIdx w) a1)
    as (a3 & S3 & _ & ->); [eapply logRoom_le; [|exact R]; lia|].
  rewrite Hnone. cbn [length Z.of_nat]. cbv zeta.
  destruct (decide (0 > 0)); [lia|].
  cbn [mbind outcome_bind mret outcome_ret].
  eexists _, _. split; [reflexivity|]. simpl.
  apply sameButLog_fields in S as (_ & <- & _).
  apply sameButLog_fields in S3 as (_ & -> & _). done.
Qed.

(** With A waiting on the queue, the closure leaves the queue as it is and
    the backoff goes from 1 to 2. *)
Lemma closure_without_unsent_witness :
  ∃ a' w',
    innerSelect 1 (CaseClose (closureOf 0)) (scenarioConn [payloadOf "A"])
      (afterSends 32 1 [payloadOf "B"]) = Done (a', w') ∧
    buf (chanSend a') = [payloadOf "A"] ∧
    exponentialBackoff w' = 2.
Proof.
  destruct (closure_without_unsent 1 (closureOf 0) (scenarioConn [payloadOf "A"])
              (afterSends 32 1 [payloadOf "B"])) as (a' & w' & E & Hq & _ & Hb & _).
  - reflexivity.
  - left. reflexivity.
  - exists a', w'. split; [exact E|]. split; [rewrite Hq; reflexivity|].
    rewrite Hb. reflexivity.
Defined.

(** ** A replay that does not fit the send channel *)

Lemma replayLoop_blocked (cache : list Payload) (cur size : Z) (n : nat)
    (a : connectionAPNS) :
  0 < size <= maxCache → Z.of_nat (length cache) = size → 0 <= cur < size →
  Z.of_nat (S n) <= size →
  status a = ApnsActive →
  (length (buf (chanSend a)) <= capacity (chanSend a))%nat →
  (capacity (chanSend a) < length (buf (chanSend a)) + S n)%nat →
  replayLoop cache cur size (S n) a = Blocked.
Proof.
  intros Hs Hlen Hcur. revert a.
  induction n as [|n IH]; intros a Hn Hact Hinv Hfull;
    rewrite replayLoop_S, replay_index by lia.
  - assert (Hb : 0 <= (cur + size - Z.of_nat 1 + 1) `mod` size < size)
      by (apply Z.mod_pos_bound; lia).
    unfold go_index. destruct (decide _) as [_|Hbad]; [|lia].
    destruct (lookup_lt_is_Some_2 cache
                (Z.to_nat ((cur + size - Z.of_nat 1 + 1) `mod` size)))
      as [p ->]; [lia|].
    cbn [mbind outcome_bind].
    unfold pushOne. destruct (decide _); [|done].
    unfold chan_send. destruct (decide _); [lia|done].
  - assert (Hb : 0 <= (cur + size - Z.of_nat (S (S n)) + 1) `mod` size < size)
      by (apply Z.mod_pos_bound; lia).
    unfold go_index. destruct (decide _) as [_|Hbad]; [|lia].
    destruct (lookup_lt_is_Some_2 cache
                (Z.to_nat ((cur + size - Z.of_nat (S (S n)) + 1) `mod` size)))
      as [p ->]; [lia|].
    cbn [mbind outcome_bind].
    destruct (decide (length (buf (chanSend a)) < capacity (chanSend a))%nat)
      as [Hroom|Hnoroom].
    + rewrite pushOne_active by (done || (unfold sendRoom; lia)).
      cbn [mbind outcome_bind]. apply IH.
      * lia.
      * done.
      * simpl. rewrite length_app. simpl. lia.
      * simpl. rewrite length_app. simpl. lia.
    + unfold pushOne. destruct (decide _); [|done].
      unfold chan_send. destruct (decide _); [lia|done].
Qed.

(** X6: when the send channel of an Active manager has no room for all the
    payloads a closure makes the goroutine replay (the reported count, at
    most the cache size), the turn of the inner loop does not complete: the
    goroutine parks on the send channel in the middle of the replay, before
    it marks its connection bad. *)
Theorem replay_blocks_on_full_queue (size sid : Z) (ce : ConnectionClose)
    (a : connectionAPNS) (w : socketState) :
  0 < size <= maxCache →
  socketReach size w →
  status a = ApnsActive →
  (length (buf (chanSend a)) <= capacity (chanSend a))%nat →
  (capacity (chanSend a)
   < length (buf (chanSend a)) + length (UnsentPayloads ce) `min` Z.to_nat size)%nat →
  logRoom 4 a →
  innerSelect sid (CaseClose ce) a w = Blocked.
Proof.
  intros Hs Hr Hact Hinv Hfull Hlog.
  destruct (socketReach_cacheInv size w Hs Hr) as [_ Hlen Hidx _].
  unfold innerSelect, logPrintln.
  run_log Hlog a1. rename S into S1.
  destruct (handleCloseError_logs ce sid (payloadCache w) (intPayloadIdx w) a1)
    as (a3 & S3 & _ & ->); [eapply logRoom_le; [|exact R]; lia|].
  cbv zeta. rewrite Hlen.
  pose proof (sameButLog_fields _ _ (sameButLog_trans _ _ _ S1 S3)) as (Hst & Hcs & _).
  set (N := length (UnsentPayloads ce)) in *.
  destruct (decide (Z.of_nat N > 0)) as [Hpos|Hzero]; [|lia].
  assert (Hn : ∃ n, Z.to_nat (if decide (Z.of_nat N > size) then size else Z.of_nat N)
                    = S n ∧ S n = (N `min` Z.to_nat size)%nat).
  { exists (pred (N `min` Z.to_nat size)). destruct (decide _); lia. }
  destruct Hn as (n & -> & Hn).
  rewrite (replayLoop_blocked _ _ size); try done.
  - lia.
  - by rewrite Hst.
  - by rewrite Hcs.
  - rewrite Hcs. lia.
Qed.

(** Ninety-nine payloads wait on the queue of 100; a closure makes the
    goroutine replay two. *)
Lemma replay_blocks_on_full_queue_witness :
  innerSelect 1 (CaseClose (closureOf 2))
    (scenarioConn (replicate 99 (payloadOf "Q")))
    (afterSends 32 1 [payloadOf "A"; payloadOf "B"]) = Blocked.
Proof.
  apply (replay_blocks_on_full_queue 32).
  - unfold maxCache. lia.
  - apply afterSends_reach. unfold maxCache. lia.
  - reflexivity.
  - vm_compute. lia.
  - vm_compute. lia.
  - left. reflexivity.
Defined.

(** ** [pushOne] queues in call order and blocks on a full channel *)

(** X7: on an Active manager, payloads pushed one after the other are
    appended to the send channel in the order of the calls as long as there
    is room; on a full channel [pushOne] does not return. *)
Theorem submit_fifo (ps : list Payload) (p : Payload) (a : connectionAPNS) :
  status a = ApnsActive →
  (sendRoom (length ps) a →
   pushMany ps a
   = Done (set_chanSend (Chan (buf (chanSend a) ++ ps) (capacity (chanSend a))) a)) ∧
  (capacity (chanSend a) <= length (buf (chanSend a)) →
   pushOne p a = Blocked)%nat.
Proof.
  intros Hact. split.
  - revert a Hact. induction ps as [|q ps IH]; intros a Hact Hroom.
    + simpl. rewrite app_nil_r. by destruct a as [? ? ? ? ? ? ? ? ? [? ?] ? ? ?].
    + cbn [pushMany]. unfold sendRoom in Hroom. simpl in Hroom.
      rewrite pushOne_active by (done || (unfold sendRoom; lia)).
      cbn [mbind outcome_bind]. rewrite IH.
      * simpl. by rewrite <- app_assoc.
      * done.
      * unfold sendRoom. simpl. rewrite length_app. simpl. lia.
  - intros Hfull. unfold pushOne. destruct (decide _); [|done].
    unfold chan_send. destruct (decide _); [lia|done].
Qed.

(** A and B are pushed behind Q; and the 101st payload blocks. *)
Lemma submit_fifo_witness :
  pushMany [payloadOf "A"; payloadOf "B"] (scenarioConn [payloadOf "Q"])
  = Done (scenarioConn [payloadOf "Q"; payloadOf "A"; payloadOf "B"]) ∧
  pushOne (payloadOf "A") (scenarioConn (replicate 100 (payloadOf "Q"))) = Blocked.
Proof.
  split.
  - destruct (submit_fifo [payloadOf "A"; payloadOf "B"] (payloadOf "A")
                (scenarioConn [payloadOf "Q"]) eq_refl) as [H _].
    rewrite H; [reflexivity|]. unfold sendRoom. vm_compute. lia.
  - destruct (submit_fifo [] (payloadOf "A")
                (scenarioConn (replicate 100 (payloadOf "Q"))) eq_refl) as [_ H].
    apply H. vm_compute. lia.
Defined.

(** ** [logListener] *)

(** X8: with the stop signal closed, [logListener] taking the entry case
    once for each of the first entries of the log channel, then the stop
    case, prints those entries to the file in the order they were queued,
    each behind the prefix of the logger of its socket, leaves the later
    entries on the channel and returns. *)
Theorem logListener_in_order (es rest : list logEntry) (a : connectionAPNS) :
  buf (chanLog a) = es ++ rest →
  Forall (λ e, is_Some (loggers a !! socketID e)) es →
  chanDoneLog a = SigClosed →
  ∃ a',
    logListener (replicate (length es) LogEntry ++ [LogDone]) a = Done a' ∧
    fileLog a' = fileLog a ++ omap (rendered a) es ∧
    length (omap (rendered a) es) = length es ∧
    buf (chanLog a') = rest ∧
    chanSend a' = chanSend a ∧
    status a' = status a.
Proof.
  revert a. induction es as [|e es IH]; intros a Hq Hall Hstop.
  - exists a. simpl. rewrite Hstop. simpl. rewrite app_nil_r. done.
  - apply Forall_cons in Hall as [[prefix Hp] Hall].
    cbn [replicate length app logListener].
    unfold logListener_select at 1, chan_recv. rewrite Hq.
    cbn [app mbind outcome_bind]. rewrite Hp.
    cbn [mbind outcome_bind mret outcome_ret].
    set (a1 := set_fileLog _ _).
    destruct (IH a1) as (a' & E & Hf & Hl & Hb & Hs & Ht); [done|done|done|].
    exists a'. split; [exact E|].
    assert (Hr : ∀ l : list logEntry, omap (rendered a1) l = omap (rendered a) l) by done.
    rewrite Hr in Hf, Hl.
    assert (Hcons : omap (rendered a) (e :: es)
                    = (prefix +:+ message e) :: omap (rendered a) es).
    { cbn [omap list_omap]. unfold rendered at 1. by rewrite Hp. }
    rewrite Hcons, Hf. subst a1. cbn [length]. rewrite Hl.
    repeat split; try done. simpl. by rewrite <- app_assoc.
Qed.

(** Socket 2 logged before socket 1: the file gets the two lines in that
    order, with the prefixes of the sockets. *)
Lemma logListener_in_order_witness :
  ∃ a',
    logListener [LogEntry; LogEntry; LogDone]
      (set_chanDoneLog SigClosed
         (set_chanLog (Chan [mkEntry 2 "two"; mkEntry 1 "one"; mkEntry 2 "late"] 100)
            (scenarioConn []))) = Done a' ∧
    fileLog a' = ["APN2: two"; "APN1: one"] ∧
    buf (chanLog a') = [mkEntry 2 "late"].
Proof.
  destruct (logListener_in_order [mkEntry 2 "two"; mkEntry 1 "one"] [mkEntry 2 "late"]
              (set_chanDoneLog SigClosed
                 (set_chanLog
                    (Chan [mkEntry 2 "two"; mkEntry 1 "one"; mkEntry 2 "late"] 100)
                    (scenarioConn []))))
    as (a' & E & Hf & _ & Hb & _).
  - reflexivity.
  - repeat constructor; vm_compute; eauto.
  - reflexivity.
  - exists a'. split; [exact E|]. split; [rewrite Hf; reflexivity|exact Hb].
Defined.

(** X9: an entry whose socket has no logger in the map makes [logListener]
    panic when it takes it off the channel: the lookup gives a nil logger,
    on which [Print] is called. *)
Theorem logListener_unknown_socket (e : logEntry) (rest : list logEntry)
    (cs : list logCase) (a : connectionAPNS) :
  buf (chanLog a) = e :: rest →
  loggers a !! socketID e = None →
  logListener (LogEntry :: cs) a = Panicked.
Proof.
  intros Hq Hnone. cbn [logListener]. unfold logListener_select, chan_recv.
  rewrite Hq. cbn [mbind outcome_bind]. by rewrite Hnone.
Qed.

(** A launched manager has loggers for sockets 1 and 2 only. *)
Lemma logListener_unknown_socket_witness :
  logListener [LogEntry; LogDone]
    (set_chanLog (Chan [mkEntry 3 "three"] 100) (scenarioConn [])) = Panicked.
Proof.
  apply (logListener_unknown_socket (mkEntry 3 "three") []); reflexivity.
Defined.

(** ** [launch] and [close] *)

(** X10: when [launch] returns an error, no goroutine was started, and the
    status, the four channels and the loggers of the manager are as
    before; the error is the one of opening the log file or the one of the
    feedback service. *)
Theorem launch_failure_starts_nothing (env : world) (b : bool)
    (a a' : connectionAPNS) (e : string) (gos : list goroutine) :
  launch env b a = Done (Some e, a', gos) →
  gos = [] ∧
  status a' = status a ∧
  chanSend a' = chanSend a ∧ chanLog a' = chanLog a ∧
  chanDone a' = chanDone a ∧ chanDoneLog a' = chanDoneLog a ∧
  loggers a' = loggers a ∧
  (openFile env ("logs/apns/" +:+ stringID a +:+ ".txt") = Some e ∨
   ∃ c, cert a = Some c ∧
        feedbackService env (mkConfig (Cert c) (RSAKey c) (feedbackURL env)) = inr e).
Proof.
  unfold launch. intros H.
  destruct (status (set_isLogging b a)) eqn:Es; try discriminate H;
    (destruct (cert (set_isLogging b a)) as [c|] eqn:Ec; [|discriminate H];
     destruct (openFile env _) as [e0|] eqn:Eo;
     [injection H as <- <- <-; repeat split; try done; by left|];
     unfold getBadTokens in H;
     destruct (feedbackService env _) as [resp|e1] eqn:Ef; [discriminate H|];
     injection H as <- <- <-; repeat split; try done;
     right; exists c; by split).
Qed.

(** The log file cannot be opened. *)
Lemma launch_failure_starts_nothing_witness :
  ∃ a',
    launch (mkWorld "push" "feedback" (λ _, Some "permission denied") (λ _, inl []))
      true (newConnection 7 "app" (Some (mkAppCert 7 1 [] [])))
    = Done (Some "permission denied", a', []) ∧
    status a' = ApnsCertsFound.
Proof.
  destruct (launch (mkWorld "push" "feedback" (λ _, Some "permission denied")
                      (λ _, inl []))
              true (newConnection 7 "app" (Some (mkAppCert 7 1 [] []))))
    as [[[err a'] gos]| |] eqn:E; [|vm_compute in E; discriminate E..].
  assert (err = Some "permission denied") as -> by (vm_compute in E; congruence).
  destruct (launch_failure_starts_nothing _ _ _ _ _ _ E) as (-> & Hst & _).
  exists a'. split; [reflexivity|]. rewrite Hst. reflexivity.
Defined.

(** X11: an Active manager that is closed and launched again, with the log
    file opening and the feedback service answering, is Active again with
    new, empty send and log channels of capacity 100 and new open done
    channels, and a new pair of goroutines is started: what was still on
    the old send channel is not on the new one.  The log file keeps what it
    held and gets one line of the feedback poll more, and one per response. *)
Theorem relaunch_discards_queue (env : world) (b : bool) (a : connectionAPNS)
    (c : AppCert) (resp : list (Z * string)) :
  status a = ApnsActive →
  chanDone a = SigOpen →
  cert a = Some c →
  openFile env ("logs/apns/" +:+ stringID a +:+ ".txt") = None →
  feedbackService env (mkConfig (Cert c) (RSAKey c) (feedbackURL env)) = inl resp →
  ∃ a1 a2,
    close a = Done a1 ∧
    status a1 = ApnsCertsFound ∧
    chanSend a1 = chanSend a ∧
    launch env b a1 = Done (None, a2, [GoLaunchSocket 1; GoLaunchSocket 2]) ∧
    status a2 = ApnsActive ∧
    chanSend a2 = make_chan 100 ∧ chanLog a2 = make_chan 100 ∧
    chanDone a2 = SigOpen ∧ chanDoneLog a2 = SigOpen ∧
    ∃ lines, fileLog a2 = fileLog a ++ lines ∧ length lines = S (length resp).
Proof.
  intros Hact Hopen Hc Hfile Hfb.
  unfold close. destruct (decide _); [|done]. rewrite Hopen.
  cbn [sig_close mbind outcome_bind mret outcome_ret].
  eexists _, _. split; [reflexivity|]. split; [done|]. split; [done|].
  unfold launch. cbn [status set_isLogging set_status set_chanDone cert stringID].
  rewrite Hc, Hfile. unfold getBadTokens. rewrite Hfb.
  cbn [mret outcome_ret]. split; [reflexivity|].
  repeat split. eexists. split; [reflexivity|]. simpl. by rewrite length_fmap.
Qed.

(** A manager with a certificate, one line in its log file from its first
    launch and Q still queued: after the relaunch the queue is empty and the
    file has two lines. *)
Lemma relaunch_discards_queue_witness :
  ∃ a1 a2,
    close (mkConn 1 "app" ["APN: first launch"] ∅ (Some (mkAppCert 1 1 [] []))
             None None SigOpen SigOpen (Chan [payloadOf "Q"] 100) (Chan [] 100)
             ApnsActive false)
    = Done a1 ∧
    buf (chanSend a1) = [payloadOf "Q"] ∧
    launch quietWorld false a1 = Done (None, a2, [GoLaunchSocket 1; GoLaunchSocket 2]) ∧
    buf (chanSend a2) = [] ∧
    length (fileLog a2) = 2%nat ∧
    fileLog a2 !! 0%nat = Some "APN: first launch".
Proof.
  destruct (relaunch_discards_queue quietWorld false
              (mkConn 1 "app" ["APN: first launch"] ∅ (Some (mkAppCert 1 1 [] []))
                 None None SigOpen SigOpen (Chan [payloadOf "Q"] 100) (Chan [] 100)
                 ApnsActive false)
              (mkAppCert 1 1 [] []) [])
    as (a1 & a2 & E1 & _ & Hq1 & E2 & _ & Hq2 & _ & _ & _ & lines & Hf & Hl);
    try reflexivity.
  exists a1, a2. split; [exact E1|]. split; [rewrite Hq1; reflexivity|].
  split; [exact E2|]. split; [rewrite Hq2; reflexivity|].
  rewrite Hf. split.
  - rewrite length_app, Hl. reflexivity.
  - reflexivity.
Defined.

(** X12: [close] on a manager whose done channel is open when it is Active
    returns, leaves the manager not Active and with that property, and a
    second [close] changes nothing; on a manager that is not Active the
    first changes nothing either. *)
Theorem close_idempotent (a : connectionAPNS) :
  doneOpen a →
  ∃ a1,
    close a = Done a1 ∧
    close a1 = Done a1 ∧
    doneOpen a1 ∧
    status a1 ≠ ApnsActive ∧
    (status a ≠ ApnsActive → a1 = a) ∧
    (status a = ApnsActive → status a1 = ApnsCertsFound ∧ chanDone a1 = SigClosed).
Proof.
  intros Hwf. unfold close at 1.
  destruct (decide (status a = ApnsActive)) as [Hact|Hno].
  - rewrite (Hwf Hact). cbn [sig_close mbind outcome_bind mret outcome_ret].
    eexists. split; [reflexivity|]. unfold close, doneOpen. simpl.
    repeat split; try done.
  - exists a. unfold close. destruct (decide _); [done|]. by repeat split.
Qed.

(** Closing the scenario manager twice. *)
Lemma close_idempotent_witness :
  ∃ a1, close (scenarioConn []) = Done a1 ∧ close a1 = Done a1 ∧
        status a1 = ApnsCertsFound.
Proof.
  destruct (close_idempotent (scenarioConn [])) as (a1 & E1 & E2 & _ & _ & _ & H).
  - intros _. reflexivity.
  - exists a1. split; [exact E1|]. split; [exact E2|]. exact (proj1 (H eq_refl)).
Defined.

(** ** Shutting down *)

Lemma sig_ready_closed (c : sigChan) : sig_ready c = true → c = SigClosed.
Proof. by destruct c. Qed.

(** X13: a goroutine sets [bShutdown] only when the done channel of the
    manager is closed: if a connection attempt or a turn of the inner loop
    that started with [bShutdown] false ends with it true, [chanDone] was
    closed; and while it is not closed the done case of the inner select
    cannot fire. *)
Theorem shutdown_only_on_done (sid : Z) (r : connectResult) (c : selectCase)
    (a a' : connectionAPNS) (w w' : socketState) :
  bShutdown w = false →
  connectStep sid r a w = Done (a', w') ∨ innerSelect sid c a w = Done (a', w') →
  bShutdown w' = true →
  chanDone a = SigClosed ∧
  (∀ a0 w0, chanDone a0 ≠ SigClosed → innerSelect sid CaseDone a0 w0 = Blocked).
Proof.
  intros Hsh Hstep Hsh'. split.
  - destruct Hstep as [H|H].
    + unfold connectStep, logPrint, logPrintln, logPrintf in H.
      split_done H. apply logEnqueue_done, sameButLog_fields in E as (_ & _ & _ & E & _).
      destruct r; split_done H;
        apply logEnqueue_done, sameButLog_fields in E0 as (_ & _ & _ & E0 & _).
      * injection H as <- <-. simpl in Hsh'. congruence.
      * injection H as <- <-. simpl in Hsh'. congruence.
      * destruct (sig_ready (chanDone a1)) eqn:Er; [|discriminate H].
        apply sig_ready_closed in Er. congruence.
    + destruct c as [h|ce|].
      * apply innerSelect_locals in H. destruct h.
        -- destruct H as (p & rest & cache & _ & _ & ->). simpl in Hsh'. congruence.
        -- subst. congruence.
      * apply innerSelect_locals in H. subst. simpl in Hsh'. congruence.
      * unfold innerSelect in H.
        destruct (sig_ready (chanDone a)) eqn:Er; [|discriminate H].
        by apply sig_ready_closed.
  - intros a0 w0 Hopen. unfold innerSelect.
    destruct (sig_ready (chanDone a0)) eqn:Er; [|done].
    by apply sig_ready_closed in Er.
Qed.

(** After [close] the goroutine of socket 1 takes the done case. *)
Lemma shutdown_only_on_done_witness :
  chanDone (set_chanDone SigClosed (scenarioConn [])) = SigClosed ∧
  innerSelect 1 CaseDone (scenarioConn []) (afterSends 32 1 []) = Blocked.
Proof.
  destruct (innerSelect 1 CaseDone (set_chanDone SigClosed (scenarioConn []))
              (afterSends 32 1 [])) as [[a' w']| |] eqn:E;
    [|vm_compute in E; discriminate E..].
  destruct (shutdown_only_on_done 1 ConnOk CaseDone
              (set_chanDone SigClosed (scenarioConn [])) a' (afterSends 32 1 []) w')
    as [H1 H2].
  - reflexivity.
  - right. exact E.
  - vm_compute in E. injection E as _ <-. reflexivity.
  - split; [exact H1|]. apply H2. discriminate.
Defined.

(** ** The exposed functions on the map *)

(** X14: [PushOne] for an application that is not in the map does nothing;
    for one whose manager is not Active it leaves the map as it is; for one
    whose manager is Active with room on its send channel it appends the
    payload to that channel and leaves every other manager untouched. *)
Theorem PushOne_routes (k : Z) (p : Payload) (m : gmap Z connectionAPNS) :
  (m !! k = None → PushOne k p m = Done m) ∧
  (∀ c, m !! k = Some c → status c ≠ ApnsActive → PushOne k p m = Done m) ∧
  (∀ c, m !! k = Some c → status c = ApnsActive → sendRoom 1 c →
     ∃ m', PushOne k p m = Done m' ∧
       m' !! k = Some (set_chanSend
                         (Chan (buf (chanSend c) ++ [p]) (capacity (chanSend c))) c) ∧
       ∀ j, j ≠ k → m' !! j = m !! j).
Proof.
  unfold PushOne. split; [|split].
  - by intros ->.
  - intros c Hc Hst. rewrite Hc, pushOne_inactive by done.
    cbn [mbind outcome_bind mret outcome_ret]. f_equal. by apply insert_id.
  - intros c Hc Hst Hroom. rewrite Hc, pushOne_active by done.
    cbn [mbind outcome_bind mret outcome_ret].
    eexists. split; [reflexivity|]. split.
    + apply lookup_insert_eq.
    + intros j Hj. by apply lookup_insert_ne.
Qed.

(** Two applications; a payload for application 1 is queued there only. *)
Lemma PushOne_routes_witness :
  ∃ m',
    PushOne 1 (payloadOf "A") (<[1 := scenarioConn []]> (<[2 := scenarioConn []]> ∅))
    = Done m' ∧
    m' !! 1 = Some (scenarioConn [payloadOf "A"]) ∧
    m' !! 2 = Some (scenarioConn []).
Proof.
  destruct (PushOne_routes 1 (payloadOf "A")
              (<[1 := scenarioConn []]> (<[2 := scenarioConn []]> ∅)))
    as (_ & _ & H).
  destruct (H (scenarioConn [])) as (m' & E & H1 & H2).
  - reflexivity.
  - reflexivity.
  - unfold sendRoom. vm_compute. lia.
  - exists m'. split; [exact E|]. split; [exact H1|].
    rewrite H2 by discriminate. reflexivity.
Defined.

Lemma CloseConnection_known (k : Z) (m : gmap Z connectionAPNS) (c : connectionAPNS) :
  m !! k = Some c → doneOpen c →
  ∃ c1, CloseConnection k m = Done (<[k := c1]> m) ∧
        status c1 ≠ ApnsActive ∧ doneOpen c1.
Proof.
  intros Hc Hwf. unfold CloseConnection, close. rewrite Hc.
  destruct (decide (status c = ApnsActive)) as [Hact|Hno].
  - rewrite (Hwf Hact). cbn [sig_close mbind outcome_bind mret outcome_ret].
    eexists. split; [reflexivity|]. by split.
  - exists c. cbn [mbind outcome_bind mret outcome_ret]. by repeat split.
Qed.

(** X15: after [CloseConnection] for an application in the map, [PushOne]
    for that application leaves the map as it is, and the managers of the
    other applications are as before the close. *)
Theorem PushOne_after_CloseConnection (k : Z) (p : Payload)
    (m : gmap Z connectionAPNS) (c : connectionAPNS) :
  m !! k = Some c →
  doneOpen c →
  ∃ m1 c1,
    CloseConnection k m = Done m1 ∧
    m1 !! k = Some c1 ∧ status c1 ≠ ApnsActive ∧ chanSend c1 = chanSend c ∧
    PushOne k p m1 = Done m1 ∧
    ∀ j, j ≠ k → m1 !! j = m !! j.
Proof.
  intros Hc Hwf. unfold CloseConnection, close. rewrite Hc.
  assert (∃ c1, (if decide (status c = ApnsActive)
                 then c0 ← sig_close (chanDone c);
                      mret (set_status ApnsCertsFound (set_chanDone c0 c))
                 else mret c) = Done c1 ∧
                status c1 ≠ ApnsActive ∧ chanSend c1 = chanSend c)
    as (c1 & -> & Hst & Hq).
  { destruct (decide (status c = ApnsActive)) as [Hact|Hno].
    - rewrite (Hwf Hact). eexists. split; [reflexivity|]. by split.
    - by exists c. }
  cbn [mbind outcome_bind mret outcome_ret].
  exists (<[k := c1]> m), c1. split; [done|].
  split; [apply lookup_insert_eq|]. split; [done|]. split; [done|]. split.
  - unfold PushOne. rewrite lookup_insert_eq, pushOne_inactive by done.
    cbn [mbind outcome_bind mret outcome_ret]. f_equal.
    apply insert_id, lookup_insert_eq.
  - intros j Hj. by apply lookup_insert_ne.
Qed.

(** Application 1 is closed, then a payload is pushed for it. *)
Lemma PushOne_after_CloseConnection_witness :
  ∃ m1 c1,
    CloseConnection 1 (<[1 := scenarioConn []]> ∅) = Done m1 ∧
    m1 !! 1 = Some c1 ∧ buf (chanSend c1) = [] ∧
    PushOne 1 (payloadOf "A") m1 = Done m1.
Proof.
  destruct (PushOne_after_CloseConnection 1 (payloadOf "A")
              (<[1 := scenarioConn []]> ∅) (scenarioConn []))
    as (m1 & c1 & E & H1 & _ & Hq & Hp & _).
  - reflexivity.
  - intros _. reflexivity.
  - exists m1, c1. split; [exact E|]. split; [exact H1|].
    split; [rewrite Hq; reflexivity|exact Hp].
Defined.

(** X16: [CloseAllConnections], visiting the keys of the map in any order
    that reaches every one of them, on managers that have their done
    channel open when Active, returns; afterwards the map has the same
    keys, no manager in it is Active, and [PushOne] for any application
    leaves the map as it is. *)
Theorem CloseAllConnections_none_active (order : list Z) (p : Payload)
    (m : gmap Z connectionAPNS) :
  (∀ k c, m !! k = Some c → doneOpen c) →
  (∀ k, is_Some (m !! k) → k ∈ order) →
  ∃ m',
    CloseAllConnections order m = Done m' ∧
    (∀ k, is_Some (m' !! k) ↔ is_Some (m !! k)) ∧
    (∀ k c, m' !! k = Some c → status c ≠ ApnsActive) ∧
    (∀ k, PushOne k p m' = Done m').
Proof.
  intros Hwf Hcover.
  assert (Hgen : ∀ order m, (∀ k c, m !! k = Some c → doneOpen c) →
            ∃ m', CloseAllConnections order m = Done m' ∧
              (∀ k, is_Some (m' !! k) ↔ is_Some (m !! k)) ∧
              (∀ k c, k ∈ order → m' !! k = Some c → status c ≠ ApnsActive) ∧
              (∀ k, k ∉ order → m' !! k = m !! k)).
  { clear. induction order as [|k order IH]; intros m Hwf.
    - exists m. split; [done|]. split; [done|]. split; [|done].
      intros k c Hk. by apply not_elem_of_nil in Hk.
    - cbn [CloseAllConnections].
      assert (∃ m1, CloseConnection k m = Done m1 ∧
                (∀ j, is_Some (m1 !! j) ↔ is_Some (m !! j)) ∧
                (∀ c, m1 !! k = Some c → status c ≠ ApnsActive) ∧
                (∀ j, j ≠ k → m1 !! j = m !! j) ∧
                (∀ j c, m1 !! j = Some c → doneOpen c))
        as (m1 & -> & Hdom1 & Hk1 & Hother1 & Hwf1).
      { destruct (m !! k) as [c|] eqn:Hc.
        - destruct (CloseConnection_known k m c Hc (Hwf k c Hc))
            as (c1 & -> & Hst & Hwf1).
          eexists. split; [done|]. split; [|split; [|split]].
          + intros j. destruct (decide (j = k)) as [->|Hne].
            * rewrite lookup_insert_eq, Hc. split; eauto.
            * by rewrite lookup_insert_ne.
          + intros c'. rewrite lookup_insert_eq. by intros [= <-].
          + intros j Hne. by apply lookup_insert_ne.
          + intros j c'. destruct (decide (j = k)) as [->|Hne].
            * rewrite lookup_insert_eq. by intros [= <-].
            * rewrite lookup_insert_ne by done. apply Hwf.
        - exists m. unfold CloseConnection. rewrite Hc.
          split; [done|]. split; [done|]. split; [|split; [done|apply Hwf]].
          by intros c'. }
      cbn [mbind outcome_bind].
      destruct (IH m1 Hwf1) as (m' & -> & Hdom & Hin & Hout).
      exists m'. split; [done|]. split; [|split].
      + intros j. by rewrite Hdom, Hdom1.
      + intros j c Hj Hc. destruct (decide (j ∈ order)) as [Hjo|Hjo].
        * by apply (Hin j).
        * apply elem_of_cons in Hj as [->|Hj]; [|done].
          apply Hk1. by rewrite <- Hout.
      + intros j Hj. apply not_elem_of_cons in Hj as [Hne Hj].
        rewrite Hout by done. by apply Hother1. }
  destruct (Hgen order m Hwf) as (m' & E & Hdom & Hin & _).
  exists m'. split; [exact E|]. split; [exact Hdom|].
  assert (Hnone : ∀ k c, m' !! k = Some c → status c ≠ ApnsActive).
  { intros k c Hc. apply (Hin k); [|done]. apply Hcover, Hdom. eauto. }
  split; [exact Hnone|].
  intros k. unfold PushOne. destruct (m' !! k) as [c|] eqn:Hc; [|done].
  rewrite pushOne_inactive by eauto.
  cbn [mbind outcome_bind mret outcome_ret]. f_equal. by apply insert_id.
Qed.

(** Two applications, visited as 2, 1. *)
Lemma CloseAllConnections_none_active_witness :
  ∃ m',
    CloseAllConnections [2; 1]
      (<[1 := scenarioConn []]> (<[2 := scenarioConn [payloadOf "Q"]]> ∅)) = Done m' ∧
    (∀ k c, m' !! k = Some c → status c ≠ ApnsActive) ∧
    PushOne 2 (payloadOf "A") m' = Done m'.
Proof.
  destruct (CloseAllConnections_none_active [2; 1] (payloadOf "A")
              (<[1 := scenarioConn []]> (<[2 := scenarioConn [payloadOf "Q"]]> ∅)))
    as (m' & E & _ & Hst & Hp).
  - intros k c Hc _.
    destruct (decide (k = 1)) as [->|H1].
    + rewrite lookup_insert_eq in Hc. by injection Hc as <-.
    + rewrite lookup_insert_ne in Hc by done.
      destruct (decide (k = 2)) as [->|H2].
      * rewrite lookup_insert_eq in Hc. by injection Hc as <-.
      * rewrite lookup_insert_ne in Hc by done. by rewrite lookup_empty in Hc.
  - intros k [c Hc].
    destruct (decide (k = 1)) as [->|H1]; [set_solver|].
    rewrite lookup_insert_ne in Hc by done.
    destruct (decide (k = 2)) as [->|H2]; [set_solver|].
    rewrite lookup_insert_ne in Hc by done. by rewrite lookup_empty in Hc.
  - exists m'. split; [exact E|]. split; [exact Hst|apply Hp].
Defined.

(** X17: [LaunchConnection] for an application whose push flag is not 1
    returns nil, starts nothing and leaves the map as it is; and when it
    returns an error, nothing was started and the map is as before (the
    manager that failed to launch is not registered). *)
Theorem LaunchConnection_disabled_or_failed (env : world) (k : Z) (name : string)
    (enabled : Z) (c : AppCert) (b : bool) (m : gmap Z connectionAPNS) :
  (enabled ≠ 1 → LaunchConnection env k name enabled c b m = Done (None, m, [])) ∧
  (∀ e m' gos,
     LaunchConnection env k name enabled c b m = Done (Some e, m', gos) →
     m' = m ∧ gos = []).
Proof.
  unfold LaunchConnection. split.
  - intros Hne. by destruct (decide _).
  - intros e m' gos H. destruct (decide _); [|discriminate H].
    split_done H. destruct a as [[err a'] gos'].
    destruct err as [msg|]; [|discriminate H].
    injection H as <- <- <-. split; [done|].
    by destruct (launch_goroutines _ _ _ _ _ _ E) as [->|(_ & [=] & _)].
Qed.

(** Push disabled; and push enabled with a feedback service that fails. *)
Lemma LaunchConnection_disabled_or_failed_witness :
  LaunchConnection quietWorld 7 "app" 0 (mkAppCert 7 1 [] []) true ∅
  = Done (None, ∅, []) ∧
  LaunchConnection (mkWorld "push" "feedback" (λ _, None) (λ _, inr "EOF"))
    7 "app" 1 (mkAppCert 7 1 [] []) true ∅ = Done (Some "EOF", ∅, []).
Proof.
  split.
  - apply (LaunchConnection_disabled_or_failed quietWorld 7 "app" 0). discriminate.
  - destruct (LaunchConnection (mkWorld "push" "feedback" (λ _, None) (λ _, inr "EOF"))
                7 "app" 1 (mkAppCert 7 1 [] []) true ∅)
      as [[[err m'] gos]| |] eqn:E; [|vm_compute in E; discriminate E..].
    assert (err = Some "EOF") as -> by (vm_compute in E; congruence).
    destruct (LaunchConnection_disabled_or_failed
                (mkWorld "push" "feedback" (λ _, None) (λ _, inr "EOF"))
                7 "app" 1 (mkAppCert 7 1 [] []) true ∅) as [_ H].
    destruct (H _ _ _ E) as [-> ->]. reflexivity.
Defined.

(** ** Runs of the pair *)

Lemma sameButChannels_refl (a : connectionAPNS) : sameButChannels a a.
Proof. by destruct a. Qed.

Lemma sameButChannels_trans (a b c : connectionAPNS) :
  sameButChannels a b → sameButChannels b c → sameButChannels a c.
Proof. unfold sameButChannels. intros -> ->. by destruct a. Qed.

Lemma sameButChannels_log (sid : Z) (msg : string) (a a' : connectionAPNS) :
  logEnqueue sid msg a = Done a' → sameButChannels a a'.
Proof.
  intros H. apply logEnqueue_done in H. unfold sameButLog in H.
  unfold sameButChannels. rewrite H. by destruct a.
Qed.

Lemma sameButChannels_push (p : Payload) (a a' : connectionAPNS) :
  pushOne p a = Done a' → sameButChannels a a'.
Proof.
  unfold pushOne. destruct (decide _).
  - intros H. split_done H. injection H as <-. by destruct a.
  - intros [= <-]. apply sameButChannels_refl.
Qed.

Lemma sameButChannels_recv (a : connectionAPNS) (q : chan Payload) :
  sameButChannels a (set_chanSend q a).
Proof. by destruct a. Qed.

Lemma sameButChannels_stop (a : connectionAPNS) (c : sigChan) :
  sameButChannels a (set_chanDoneLog c a).
Proof. by destruct a. Qed.

(** X18: along any run of the pair in which no caller closes the manager
    (payloads are pushed, the goroutines connect, take turns of the inner
    loop and return), the manager changes in nothing but its send channel,
    its log channel and the stop signal of the log: status, done channel,
    logging flag, certificate, configurations, loggers and log file are as
    at the start. *)
Theorem goroutines_touch_only_channels (evs : list pairEvent) (s s' : pairState) :
  Forall (λ ev, ev ≠ EvClose) evs →
  pairRun evs s = Done s' →
  sameButChannels (manager s) (manager s') ∧
  status (manager s') = status (manager s) ∧
  chanDone (manager s') = chanDone (manager s) ∧
  isLogging (manager s') = isLogging (manager s) ∧
  cert (manager s') = cert (manager s) ∧
  loggers (manager s') = loggers (manager s) ∧
  fileLog (manager s') = fileLog (manager s).
Proof.
  intros Hall H.
  assert (Hsame : sameButChannels (manager s) (manager s')).
  { eapply (pairRun_frame sameButChannels); try exact H.
    - apply sameButChannels_refl.
    - apply sameButChannels_trans.
    - apply sameButChannels_log.
    - apply sameButChannels_push.
    - apply sameButChannels_recv.
    - apply sameButChannels_stop.
    - eapply Forall_impl; [exact Hall|]. intros ev Hne Heq. done. }
  split; [exact Hsame|].
  unfold sameButChannels in Hsame. rewrite Hsame. by destruct (manager s).
Qed.

(** A run with a push, a hand-over, a closure and a reconnection. *)
Lemma goroutines_touch_only_channels_witness :
  ∃ s',
    pairRun [EvConnect 1 ConnOk; EvSubmit (payloadOf "A"); EvSelect 1 (CaseSend true);
             EvSelect 1 (CaseClose (closureOf 1)); EvConnect 1 ConnOk]
      (mkPair (scenarioConn []) launchSocket_init launchSocket_init) = Done s' ∧
    status (manager s') = ApnsActive ∧
    buf (chanSend (manager s')) = [payloadOf "A"].
Proof.
  destruct (pairRun [EvConnect 1 ConnOk; EvSubmit (payloadOf "A");
                     EvSelect 1 (CaseSend true);
                     EvSelect 1 (CaseClose (closureOf 1)); EvConnect 1 ConnOk]
              (mkPair (scenarioConn []) launchSocket_init launchSocket_init))
    as [s'| |] eqn:E; [|vm_compute in E; discriminate E..].
  assert (Hall : Forall (λ ev, ev ≠ EvClose)
                   [EvConnect 1 ConnOk; EvSubmit (payloadOf "A");
                    EvSelect 1 (CaseSend true);
                    EvSelect 1 (CaseClose (closureOf 1)); EvConnect 1 ConnOk])
    by (repeat constructor; discriminate).
  destruct (goroutines_touch_only_channels _ _ _ Hall E) as (_ & Hst & _).
  exists s'. split; [reflexivity|]. split; [rewrite Hst; reflexivity|].
  vm_compute in E. injection E as <-. reflexivity.
Defined.

(** X19: on a manager with logging off, no run of the pair, closes
    included, changes the log channel or the logging flag: the log wrappers
    return before they format or queue anything. *)
Theorem logging_off_queues_nothing (evs : list pairEvent) (s s' : pairState) :
  isLogging (manager s) = false →
  pairRun evs s = Done s' →
  chanLog (manager s') = chanLog (manager s) ∧
  isLogging (manager s') = false.
Proof.
  intros Hoff H.
  set (R := λ a a' : connectionAPNS,
              isLogging a = false → chanLog a' = chanLog a ∧ isLogging a' = false).
  assert (HR : R (manager s) (manager s')); [|by apply HR].
  eapply (pairRun_frame R); try exact H; unfold R; clear.
  - done.
  - intros a b c Hab Hbc Ha. destruct (Hab Ha) as [E1 Hb].
    destruct (Hbc Hb) as [E2 Hc]. split; congruence.
  - intros sid msg a a' H Ha. unfold logEnqueue in H. rewrite Ha in H.
    by injection H as <-.
  - intros p a a' H Ha. unfold pushOne in H. destruct (decide _).
    + split_done H. by injection H as <-.
    + by injection H as <-.
  - done.
  - done.
  - apply Forall_forall. intros ev _ _ a a' H Ha. unfold close in H.
    destruct (decide _).
    + split_done H. by injection H as <-.
    + by injection H as <-.
Qed.

(** The scenario manager logs nothing along a run with a closure and a
    close. *)
Lemma logging_off_queues_nothing_witness :
  ∃ s',
    pairRun [EvConnect 1 ConnOk; EvSelect 1 (CaseClose (closureOf 0)); EvClose;
             EvConnect 1 (ConnErrDone "refused")]
      (mkPair (scenarioConn []) launchSocket_init launchSocket_init) = Done s' ∧
    buf (chanLog (manager s')) = [].
Proof.
  destruct (pairRun [EvConnect 1 ConnOk; EvSelect 1 (CaseClose (closureOf 0)); EvClose;
                     EvConnect 1 (ConnErrDone "refused")]
              (mkPair (scenarioConn []) launchSocket_init launchSocket_init))
    as [s'| |] eqn:E; [|vm_compute in E; discriminate E..].
  destruct (logging_off_queues_nothing _
              (mkPair (scenarioConn []) launchSocket_init launchSocket_init) s'
              eq_refl E) as [Hq _].
  exists s'. split; [reflexivity|]. rewrite Hq. reflexivity.
Defined.

(** The send channel before and after a turn that received a payload. *)
Lemma innerSelect_send_queue (sid : Z) (h : bool) (a a' : connectionAPNS)
    (w w' : socketState) :
  innerSelect sid (CaseSend h) a w = Done (a', w') →
  ∃ p rest, buf (chanSend a) = p :: rest ∧ buf (chanSend a') = rest.
Proof.
  unfold innerSelect, chan_recv, logPrintf. intros H.
  destruct (buf (chanSend a)) as [|p rest]; [discriminate H|].
  cbn [mbind outcome_bind mret outcome_ret] in H.
  split_done H. apply logEnqueue_done, sameButLog_fields in E as (_ & E & _).
  assert (a' = a0) as ->.
  { destruct h; [split_done H|]; by injection H as <- <-. }
  exists p, rest. split; [done|]. by rewrite E.
Qed.

(** X20: along a run on an Active manager that consists of callers pushing
    payloads and the two goroutines handing payloads to the transport, no
    payload is lost or duplicated: what is on the send channel and what the
    two goroutines have handed over at the end is, up to order, what was
    there at the start and what was pushed. *)
Theorem traffic_conserved (evs : list pairEvent) (s s' : pairState) :
  Forall isTraffic evs →
  status (manager s) = ApnsActive →
  pairRun evs s = Done s' →
  buf (chanSend (manager s')) ++ wire (socket1 s') ++ wire (socket2 s')
  ≡ₚ buf (chanSend (manager s)) ++ wire (socket1 s) ++ wire (socket2 s)
     ++ submitted evs.
Proof.
  revert s. induction evs as [|ev evs IH]; intros s Hall Hact H.
  - injection H as <-. simpl. by rewrite app_nil_r.
  - apply Forall_cons in Hall as [Hev Hall].
    cbn [pairRun] in H. split_done H. rename a into s1.
    assert (Hact1 : status (manager s1) = ApnsActive).
    { assert (Hs : sameButChannels (manager s) (manager s1)).
      { eapply (pairStep_frame sameButChannels); try exact E.
        - apply sameButChannels_refl.
        - apply sameButChannels_trans.
        - apply sameButChannels_log.
        - apply sameButChannels_push.
        - apply sameButChannels_recv.
        - apply sameButChannels_stop.
        - intros ->. done. }
      unfold sameButChannels in Hs. rewrite Hs. by destruct (manager s). }
    rewrite (IH s1 Hall Hact1 H). clear IH H.
    destruct ev as [p| |sid r|sid c|sid c]; try done.
    + cbn [pairStep submitted] in *.
      rewrite pushOne_active in E; [| done |].
      * injection E as <-. simpl.
        rewrite <- !app_assoc. simpl.
        apply Permutation_app_head. by rewrite <- !Permutation_middle.
      * unfold pushOne in E. destruct (decide _); [|done].
        unfold chan_send in E. destruct (decide _); [|discriminate E].
        unfold sendRoom. lia.
    + destruct c as [[]| |]; try done.
      cbn [pairStep submitted] in *. split_done E. destruct a as [a1 w1].
      injection E as <-.
      destruct (innerSelect_send_queue _ _ _ _ _ _ E0) as (p & rest & Hq & Hq').
      apply innerSelect_locals in E0 as (p' & rest' & cache & Hq2 & _ & ->).
      rewrite Hq in Hq2. injection Hq2 as <- <-.
      rewrite Hq. unfold withSocket, socketOf.
      destruct (decide (sid = 1)); simpl; rewrite Hq'.
      * rewrite <- !app_assoc. simpl.
        by rewrite <- !Permutation_middle.
      * rewrite <- !app_assoc. simpl.
        by rewrite <- !Permutation_middle.
Qed.

(** A, B, C are pushed; socket 1 hands over A and C, socket 2 hands over B. *)
Lemma traffic_conserved_witness :
  ∃ s',
    pairRun [EvSubmit (payloadOf "A"); EvSubmit (payloadOf "B");
             EvSelect 1 (CaseSend true); EvSubmit (payloadOf "C");
             EvSelect 2 (CaseSend true); EvSelect 1 (CaseSend true)]
      (mkPair (scenarioConn []) (afterSends 32 1 []) (afterSends 32 2 [])) = Done s' ∧
    buf (chanSend (manager s')) ++ wire (socket1 s') ++ wire (socket2 s')
    ≡ₚ [payloadOf "A"; payloadOf "B"; payloadOf "C"].
Proof.
  destruct (pairRun [EvSubmit (payloadOf "A"); EvSubmit (payloadOf "B");
                     EvSelect 1 (CaseSend true); EvSubmit (payloadOf "C");
                     EvSelect 2 (CaseSend true); EvSelect 1 (CaseSend true)]
              (mkPair (scenarioConn []) (afterSends 32 1 []) (afterSends 32 2 [])))
    as [s'| |] eqn:E; [|vm_compute in E; discriminate E..].
  exists s'. split; [reflexivity|].
  assert (Hall : Forall isTraffic
                   [EvSubmit (payloadOf "A"); EvSubmit (payloadOf "B");
                    EvSelect 1 (CaseSend true); EvSubmit (payloadOf "C");
                    EvSelect 2 (CaseSend true); EvSelect 1 (CaseSend true)])
    by (repeat constructor).
  rewrite (traffic_conserved _
             (mkPair (scenarioConn []) (afterSends 32 1 []) (afterSends 32 2 [])) s'
             Hall eq_refl E).
  reflexivity.
Defined.

(** X21: whatever the callers and the two goroutines do, they never write
    to the log file: along every run of the pair the file is as at the
    start.  Only [logListener] prints to it. *)
Theorem log_file_written_by_listener_only (evs : list pairEvent) (s s' : pairState)
    (cs : list logCase) (a' : connectionAPNS) :
  pairRun evs s = Done s' →
  fileLog (manager s') = fileLog (manager s) ∧
  (logListener cs (manager s') = Done a' →
   ∃ lines, fileLog a' = fileLog (manager s) ++ lines).
Proof.
  intros H. pose proof (pairRun_file _ _ _ H) as Hf. split; [exact Hf|].
  rewrite <- Hf. generalize (manager s'). clear.
  induction cs as [|c cs IH]; intros a H; [discriminate H|].
  cbn [logListener] in H. split_done H. destruct a0 as [a1 stop].
  assert (∃ l1, fileLog a1 = fileLog a ++ l1) as [l1 H1].
  { unfold logListener_select in E. destruct c.
    - split_done E. destruct a0 as [e q].
      destruct (loggers a !! socketID e); [|discriminate E].
      injection E as <- <-. by eexists.
    - destruct (sig_ready _); [|discriminate E].
      injection E as <- <-. exists []. by rewrite app_nil_r. }
  destruct stop.
  - injection H as <-. by exists l1.
  - destruct (IH a1 H) as [l2 H2]. exists (l1 ++ l2).
    by rewrite H2, H1, app_assoc.
Qed.

(** With logging on, two goroutines connect and the file is untouched. *)
Lemma log_file_written_by_listener_only_witness :
  ∃ s',
    pairRun [EvConnect 1 ConnOk; EvConnect 2 ConnOk]
      (mkPair (set_isLogging true (scenarioConn [])) launchSocket_init launchSocket_init)
    = Done s' ∧
    fileLog (manager s') = [] ∧
    length (buf (chanLog (manager s'))) = 4%nat.
Proof.
  destruct (pairRun [EvConnect 1 ConnOk; EvConnect 2 ConnOk]
              (mkPair (set_isLogging true (scenarioConn []))
                 launchSocket_init launchSocket_init))
    as [s'| |] eqn:E; [|vm_compute in E; discriminate E..].
  destruct (log_file_written_by_listener_only _ _ _ [] (scenarioConn []) E) as [Hf _].
  exists s'. split; [reflexivity|]. split; [rewrite Hf; reflexivity|].
  vm_compute in E. injection E as <-. reflexivity.
Defined.

(** ** The cursor *)

(** X22: at every loop head of a [launchSocket] goroutine the cursor is the
    number of payloads handed over so far, less one, modulo the cache size
    (the last slot before any hand-over), and once a payload was handed
    over the slot under the cursor holds the most recent one. *)
Theorem cursor_counts_handovers (size : Z) (w : socketState) :
  0 < size <= maxCache →
  socketReach size w →
  intPayloadIdx w = (Z.of_nat (length (wire w)) + size - 1) `mod` size ∧
  (wire w ≠ [] → payloadCache w !! Z.to_nat (intPayloadIdx w) = last (wire w)).
Proof.
  intros Hs Hr. split.
  - induction Hr as [|sid r a w a' w' Hr IH _ Hstep
                     |sid c a w a' w' Hr IH _ _ Hstep].
    + simpl. unfold int_sub, maxCache in *. rewrite wrap64_small by lia.
      rewrite Z.mod_small; lia.
    + apply connectStep_locals in Hstep as (_ & -> & _ & -> & _). exact IH.
    + pose proof (socketReach_cacheInv size w Hs Hr) as [Hsz _ Hidx _].
      apply innerSelect_locals in Hstep. destruct c as [[]|ce|].
      * destruct Hstep as (p & rest & cache & _ & _ & ->). simpl.
        rewrite Hsz, send_index by done. rewrite IH, length_app. simpl.
        rewrite Zplus_mod_idemp_l. f_equal. lia.
      * by subst.
      * by subst.
      * by subst.
  - intros Hne.
    destruct (socketReach_cacheInv size w Hs Hr) as [_ Hlen Hidx Hslots].
    specialize (Hslots (Z.to_nat size - 1)%nat ltac:(lia)).
    replace ((intPayloadIdx w + 1 + Z.of_nat (Z.to_nat size - 1)) `mod` size)
      with (intPayloadIdx w) in Hslots.
    2:{ replace (intPayloadIdx w + 1 + Z.of_nat (Z.to_nat size - 1))
          with (intPayloadIdx w + 1 * size) by lia.
        rewrite Z.mod_add, Z.mod_small; lia. }
    rewrite Hslots. unfold window.
    assert (0 < length (wire w))%nat by (destruct (wire w); [done|simpl; lia]).
    rewrite lookup_app_r by (rewrite length_replicate; lia).
    rewrite length_replicate, lookup_drop, last_lookup. f_equal. lia.
Qed.

(** Cache of 4 and six sends A..F: the cursor is at slot 1, which holds F. *)
Lemma cursor_counts_handovers_witness :
  let w := afterSends 4 1 (payloadOf <$> ["A"; "B"; "C"; "D"; "E"; "F"]) in
  intPayloadIdx w = 1 ∧ payloadCache w !! 1%nat = Some (payloadOf "F").
Proof.
  intros w.
  destruct (cursor_counts_handovers 4 w) as [Hi Hl].
  - unfold maxCache. lia.
  - apply afterSends_reach. unfold maxCache. lia.
  - split.
    + rewrite Hi. reflexivity.
    + assert (Hn : wire w ≠ []) by (vm_compute; discriminate).
      specialize (Hl Hn). rewrite Hi in Hl. exact Hl.
Defined.

(** ** Managers as [newConnection] makes them *)

(** X23: [launch] on a manager fresh from [newConnection] always returns:
    the nil dereference of the certificate is never reached, because the
    status is NoCerts exactly when the pointer is nil.  With a nil
    certificate the call returns nil and starts nothing, the status stays
    NoCerts, a further [launch] does the same, and [pushOne] drops the
    payload. *)
Theorem newConnection_launch (env : world) (b : bool) (k : Z) (name : string)
    (oc : option AppCert) (p : Payload) :
  (∃ r, launch env b (newConnection k name oc) = Done r) ∧
  (oc = None →
   ∃ a',
     launch env b (newConnection k name oc) = Done (None, a', []) ∧
     status a' = ApnsNoCerts ∧
     launch env b a' = Done (None, a', []) ∧
     pushOne p a' = Done a').
Proof.
  split.
  - unfold launch. destruct oc as [c|]; simpl.
    + destruct (openFile env _); [by eexists|].
      destruct (getBadTokens env _ _) as [lines [e|]]; by eexists.
    + by eexists.
  - intros ->. eexists. split; [reflexivity|]. split; [done|]. split; [|done].
    by destruct b.
Qed.

(** A manager made without a certificate. *)
Lemma newConnection_launch_witness :
  ∃ a',
    launch quietWorld true (newConnection 7 "app" None) = Done (None, a', []) ∧
    status a' = ApnsNoCerts ∧
    pushOne (payloadOf "A") a' = Done a'.
Proof.
  destruct (newConnection_launch quietWorld true 7 "app" None (payloadOf "A"))
    as [_ H].
  destruct (H eq_refl) as (a' & E & Hst & _ & Hp).
  exists a'. split; [exact E|]. split; [exact Hst|exact Hp].
Defined.
